(** * jsonld-kit: the vocabulary compiler core and the script-safe serializer

    A shallow embedding of the schema type generator (triple store adapter,
    graph extractor, topological linearizer, identifier sanitizer, type
    mapper, emitter) and of [safeJsonLdStringify] from the React package,
    together with the properties their specification states about them.

    JavaScript strings are sequences of UTF-16 code units: a string is a
    [list N], one number per code unit.  Regular expressions without the
    [u] flag, [Array.prototype.sort] without a comparator, [Map] and [Set]
    all work on code units, so this is the granularity the code sees. *)

From stdpp Require Import list gmap sorting strings.

(** ** JavaScript strings *)

Abbreviation str := (list N) (only parsing).

(** A source-code literal: every character of the literals used by the
    program is ASCII, so its code unit is its byte. *)
Definition js (s : string) : str :=
  map Ascii.N_of_ascii (String.list_ascii_of_string s).

(** [Array.prototype.join]. *)
Fixpoint join (sep : str) (l : list str) : str :=
  match l with
  | [] => []
  | [x] => x
  | x :: rest => x ++ sep ++ join sep rest
  end.

(** The default sort order of [Array.prototype.sort]: code unit by code
    unit, a proper prefix first. *)
Fixpoint str_compare (a b : str) : comparison :=
  match a, b with
  | [], [] => Eq
  | [], _ :: _ => Lt
  | _ :: _, [] => Gt
  | x :: a', y :: b' =>
      match N.compare x y with
      | Eq => str_compare a' b'
      | c => c
      end
  end.

Definition str_le (a b : str) : Prop := str_compare a b ≠ Gt.
Definition str_lt (a b : str) : Prop := str_compare a b = Lt.

Global Instance str_le_dec : RelDecision str_le.
Proof. intros a b. unfold str_le. apply _. Defined.

(** [Array.prototype.sort()] on an array of strings. *)
Definition sort (l : list str) : list str := merge_sort str_le l.

(** ** JavaScript [Set] and [Map], in insertion order *)

Module JsSet.
(** [Set.prototype.add]: a new element goes to the end. *)
Definition add (x : str) (s : list str) : list str :=
  if decide (x ∈ s) then s else s ++ [x].

Definition has (x : str) (s : list str) : bool := bool_decide (x ∈ s).

(** [new Set(array)]. *)
Definition of_list (l : list str) : list str :=
  foldl (fun s x => add x s) [] l.
End JsSet.

Module JsMap.
Section ops.
Context {V : Type}.

Fixpoint get (k : str) (m : list (str * V)) : option V :=
  match m with
  | [] => None
  | (k', v) :: rest => if decide (k = k') then Some v else get k rest
  end.

Definition has (k : str) (m : list (str * V)) : bool :=
  match get k m with Some _ => true | None => false end.

(** [Map.prototype.set]: an existing key keeps its place. *)
Fixpoint set (k : str) (v : V) (m : list (str * V)) : list (str * V) :=
  match m with
  | [] => [(k, v)]
  | (k', v') :: rest =>
      if decide (k = k') then (k, v) :: rest else (k', v') :: set k v rest
  end.

Definition keys (m : list (str * V)) : list str := m.*1.
Definition values (m : list (str * V)) : list V := m.*2.
End ops.
End JsMap.

(** ** The identifier sanitizer *)

Definition TS_RESERVED : list str := map js
  [ "break"; "case"; "catch"; "class"; "const"; "continue"; "debugger";
    "default"; "delete"; "do"; "else"; "enum"; "export"; "extends"; "false";
    "finally"; "for"; "function"; "if"; "import"; "in"; "instanceof"; "new";
    "null"; "return"; "super"; "switch"; "this"; "throw"; "true"; "try";
    "typeof"; "var"; "void"; "while"; "with"; "as"; "implements";
    "interface"; "let"; "package"; "private"; "protected"; "public";
    "static"; "yield"; "any"; "boolean"; "number"; "string"; "symbol";
    "type"; "unknown"; "never"; "object"; "readonly"; "keyof"; "declare";
    "abstract"; "namespace"; "module"; "global"; "require" ].

Definition is_upper (c : N) : bool := ((65 <=? c) && (c <=? 90))%N.
Definition is_lower (c : N) : bool := ((97 <=? c) && (c <=? 122))%N.
Definition is_digit (c : N) : bool := ((48 <=? c) && (c <=? 57))%N.
Definition underscore : N := 95.
Definition dollar : N := 36.

(** The character class [[A-Za-z0-9_$]]. *)
Definition is_ident_part (c : N) : bool :=
  is_upper c || is_lower c || is_digit c || (c =? underscore)%N || (c =? dollar)%N.

(** The character class [[A-Za-z_$]]. *)
Definition is_ident_start (c : N) : bool :=
  is_upper c || is_lower c || (c =? underscore)%N || (c =? dollar)%N.

(** [/^[0-9]/.test(s)] and [/^[A-Za-z_$]/.test(s)]. *)
Definition starts_with (cls : N → bool) (s : str) : bool :=
  match s with
  | [] => false
  | c :: _ => cls c
  end.

(** One code unit under [replace(/[^A-Za-z0-9_$]/g, "_")]. *)
Definition clean (c : N) : N := if is_ident_part c then c else underscore.

(** The value of [out] after the first three steps. *)
Definition prefixed (schemaName : str) : str :=
  let out := map clean schemaName in
  let out := if starts_with is_digit out then underscore :: out else out in
  if starts_with is_ident_start out then out else underscore :: out.

Definition toTsIdent (schemaName : str) : str :=
  let out := prefixed schemaName in
  if JsSet.has out TS_RESERVED then out ++ [underscore] else out.

(** What the specification calls a valid identifier: a match of
    [[A-Za-z_$][A-Za-z0-9_$]*] that is not a reserved word. *)
Definition matches_ident (s : str) : bool :=
  match s with
  | [] => false
  | c :: rest => is_ident_start c && forallb is_ident_part rest
  end.

Definition valid_ident (s : str) : Prop :=
  matches_ident s = true ∧ s ∉ TS_RESERVED.

(** ** The data model *)

Module ClassDef.
Record t := mk {
  name : str;
  iri : str;
  parents : list str;
  properties : list str  (* a [Set<string>], in insertion order *)
}.
End ClassDef.

Module PropDef.
Record t := mk {
  name : str;
  iri : str;
  domains : list str;
  ranges : list str
}.
End PropDef.

Abbreviation Classes := (list (str * ClassDef.t)) (only parsing).
Abbreviation Props := (list (str * PropDef.t)) (only parsing).

(** ** Namespaces *)

Module NS.
Definition rdf : str := js "http://www.w3.org/1999/02/22-rdf-syntax-ns#".
Definition rdfs : str := js "http://www.w3.org/2000/01/rdf-schema#".
Definition schema : str := js "https://schema.org/".
End NS.

Module IRI.
Definition rdfType : str := NS.rdf ++ js "type".
Definition rdfProperty : str := NS.rdf ++ js "Property".
Definition rdfsClass : str := NS.rdfs ++ js "Class".
Definition rdfsSubClassOf : str := NS.rdfs ++ js "subClassOf".
Definition schemaDomainIncludes : str := NS.schema ++ js "domainIncludes".
Definition schemaRangeIncludes : str := NS.schema ++ js "rangeIncludes".
End IRI.

(** [String.prototype.startsWith]. *)
Definition startsWith (s prefix : str) : bool :=
  bool_decide (take (length prefix) s = prefix).

(** [null] is [None]. *)
Definition iriToLocalName (iri : str) : option str :=
  if startsWith iri NS.schema then Some (drop (length NS.schema) iri) else None.

(** ** The triple store adapter *)

Inductive TermType := NamedNode | Literal | BlankNode | VariableTerm | DefaultGraph.

(** An RDF/JS term: every term carries a [termType] and a string [value]. *)
Record Term := { termType : TermType; value : str }.

Record Quad := { subject : Term; predicate : Term; object : Term; graph : Term }.

Definition isNamedNode (v : Term) : bool :=
  match termType v with NamedNode => true | _ => false end.

Definition isLiteral (v : Term) : bool :=
  match termType v with Literal => true | _ => false end.

(** [Boolean(s)] for a string [s]: only the empty string is falsy. *)
Definition truthy (s : str) : bool :=
  match s with [] => false | _ :: _ => true end.

Section Adapter.
(** The store is the external collaborator: all the adapter asks of it is
    [getQuads(subject, predicate, object, graph)], where [None] stands for
    the [null] wildcard. *)
Context {Store : Type}.
Context (getQuads : Store → option str → option str → option str → option str → list Quad).

Definition getObjects (store : Store) (subject predicate : str) : list str :=
  List.filter truthy
    (map (fun q => if isNamedNode (object q) || isLiteral (object q)
                   then value (object q) else [])
         (getQuads store (Some subject) (Some predicate) None None)).

(** ** The graph extractor *)

(** A local name that is neither [null] nor empty. *)
Definition localName (iri : str) : option str :=
  match iriToLocalName iri with
  | Some local => if truthy local then Some local else None
  | None => None
  end.

(** The body of the first loop of [buildGraph]. *)
Definition addClass (classes : Classes) (q : Quad) : Classes :=
  if negb (isNamedNode (subject q)) then classes
  else
    match localName (value (subject q)) with
    | None => classes
    | Some local =>
        JsMap.set local
          (ClassDef.mk local (value (subject q)) [] []) classes
    end.

(** The body of the second loop. *)
Definition addProp (props : Props) (q : Quad) : Props :=
  if negb (isNamedNode (subject q)) then props
  else
    match localName (value (subject q)) with
    | None => props
    | Some local =>
        JsMap.set local
          (PropDef.mk local (value (subject q)) [] []) props
    end.

(** The third loop pushes onto [cls.parents], for every class in turn. *)
Definition resolveParents (store : Store) (classes : Classes) (cls : ClassDef.t)
    : ClassDef.t :=
  let parentsIri := getObjects store (ClassDef.iri cls) IRI.rdfsSubClassOf in
  let pushed :=
    omap (fun pIri =>
            pName ← localName pIri;
            if JsMap.has pName classes then Some pName else None) parentsIri in
  ClassDef.mk (ClassDef.name cls) (ClassDef.iri cls)
    (ClassDef.parents cls ++ pushed) (ClassDef.properties cls).

(** The fourth loop pushes onto [prop.domains] and [prop.ranges]. *)
Definition resolveDomainsAndRanges (store : Store) (prop : PropDef.t) : PropDef.t :=
  let domainIris := getObjects store (PropDef.iri prop) IRI.schemaDomainIncludes in
  let rangeIris := getObjects store (PropDef.iri prop) IRI.schemaRangeIncludes in
  PropDef.mk (PropDef.name prop) (PropDef.iri prop)
    (PropDef.domains prop ++ omap localName domainIris)
    (PropDef.ranges prop ++ omap localName rangeIris).

(** The body of the fifth loop: [cls.properties.add(prop.name)] on the
    class object filed under [d], when there is one. *)
Definition attach (prop : PropDef.t) (classes : Classes) (d : str) : Classes :=
  match JsMap.get d classes with
  | None => classes
  | Some cls =>
      JsMap.set d
        (ClassDef.mk (ClassDef.name cls) (ClassDef.iri cls) (ClassDef.parents cls)
           (JsSet.add (PropDef.name prop) (ClassDef.properties cls)))
        classes
  end.

Definition buildGraph (store : Store) : Classes * Props :=
  let classes :=
    foldl addClass []
      (getQuads store None (Some IRI.rdfType) (Some IRI.rdfsClass) None) in
  let props :=
    foldl addProp []
      (getQuads store None (Some IRI.rdfType) (Some IRI.rdfProperty) None) in
  let classes := prod_map id (resolveParents store classes) <$> classes in
  let props := prod_map id (resolveDomainsAndRanges store) <$> props in
  let classes :=
    foldl (fun classes prop => foldl (attach prop) classes (PropDef.domains prop))
          classes (JsMap.values props) in
  (classes, props).
End Adapter.

(** A list-backed store, enough to run the adapter on fixtures: quads are
    kept in insertion order and a string pattern selects the named node
    with that IRI. *)
Module ListStore.
Definition matches (pat : option str) (t : Term) : bool :=
  match pat with
  | None => true
  | Some s => isNamedNode t && bool_decide (value t = s)
  end.

Definition getQuads (store : list Quad) (s p o g : option str) : list Quad :=
  List.filter (fun q => matches s (subject q) && matches p (predicate q)
                        && matches o (object q) && matches g (graph q)) store.
End ListStore.

(** ** The topological linearizer *)

(** [indeg.get(n) ?? 0]. *)
Definition indeg_of (indeg : gmap str Z) (n : str) : Z := default 0%Z (indeg !! n).

(** [for (const n of names) { indeg.set(n, 0); children.set(n, new Set()); }] *)
Definition init_tables (names : list str) : gmap str Z * gmap str (list str) :=
  foldl (fun '(indeg, children) n => (<[n := 0%Z]> indeg, <[n := []]> children))
        (∅, ∅) names.

(** One parent entry [p] of class [c].  [children.get(p)!] is a property
    access on [undefined] when [p] has no entry: [None] is that TypeError. *)
Definition add_edge (classes : Classes) (c : ClassDef.t)
    (st : gmap str Z * gmap str (list str)) (p : str)
    : option (gmap str Z * gmap str (list str)) :=
  let '(indeg, children) := st in
  if negb (JsMap.has p classes) then Some (indeg, children)
  else
    s ← children !! p;
    let children := <[p := JsSet.add (ClassDef.name c) s]> children in
    let indeg := <[ClassDef.name c := (indeg_of indeg (ClassDef.name c) + 1)%Z]> indeg in
    Some (indeg, children).

Definition add_edges (classes : Classes)
    (st : gmap str Z * gmap str (list str)) (c : ClassDef.t)
    : option (gmap str Z * gmap str (list str)) :=
  foldl (fun st p => st ≫= fun st => add_edge classes c st p) (Some st) (ClassDef.parents c).

(** [for (const c of classes.values()) for (const p of c.parents) ...] *)
Definition build_edges (classes : Classes)
    (st : gmap str Z * gmap str (list str))
    : option (gmap str Z * gmap str (list str)) :=
  foldl (fun st c => st ≫= fun st => add_edges classes st c) (Some st) (JsMap.values classes).

(** [children.get(n) ?? []]. *)
Definition children_of (children : gmap str (list str)) (n : str) : list str :=
  default [] (children !! n).

(** The body of [for (const ch of children.get(n) ?? [])]. *)
Definition relax (st : gmap str Z * list str) (ch : str) : gmap str Z * list str :=
  let '(indeg, q) := st in
  let indeg := <[ch := (indeg_of indeg ch - 1)%Z]> indeg in
  (indeg, if decide (indeg_of indeg ch = 0%Z) then q ++ [ch] else q).

(** [while (q.length) { ... }]; [None] when the fuel runs out. *)
Fixpoint drain (fuel : nat) (children : gmap str (list str))
    (indeg : gmap str Z) (q out : list str) : option (list str) :=
  match fuel with
  | O => None
  | S fuel =>
      match q with
      | [] => Some out
      | n :: q =>
          let out := out ++ [n] in
          let '(indeg, q) := foldl relax (indeg, q) (children_of children n) in
          drain fuel children indeg q out
      end
  end.

(** [for (const n of names) if (!out.includes(n)) out.push(n);] *)
Definition append_missing (names out : list str) : list str :=
  foldl (fun out n => if bool_decide (n ∈ out) then out else out ++ [n]) out names.

Definition topoSortClasses_fuel (fuel : nat) (classes : Classes) : option (list str) :=
  let names := sort (JsMap.keys classes) in
  '(indeg, children) ← build_edges classes (init_tables names);
  let q := filter (fun n => indeg_of indeg n = 0%Z) names in
  out ← drain fuel children indeg q [];
  Some (append_missing names out).

(** Every turn of the loop moves one name from the queue to the output, so
    one unit of fuel per class and one for the last test are enough. *)
Definition topoSortClasses (classes : Classes) : option (list str) :=
  topoSortClasses_fuel (S (length classes)) classes.

(** ** The type mapper *)

Definition rangeToTs (rangeName : str) (classIdentByName : list (str * str)) : str :=
  if bool_decide (rangeName ∈ [js "Text"; js "URL"]) then js "string"
  else if bool_decide (rangeName = js "Boolean") then js "boolean"
  else if bool_decide (rangeName ∈ [js "Number"; js "Integer"; js "Float"]) then js "number"
  else if bool_decide (rangeName ∈ [js "Date"; js "DateTime"; js "Time"]) then js "string"
  else
    let ident := default (toTsIdent rangeName) (JsMap.get rangeName classIdentByName) in
    ident ++ js " | string".

(** The range names the switch of [rangeToTs] treats as scalars. *)
Definition primitive_names : list str :=
  [ js "Text"; js "URL"; js "Boolean"; js "Number"; js "Integer"; js "Float";
    js "Date"; js "DateTime"; js "Time" ].

Definition propToTs (prop : PropDef.t) (classIdentByName : list (str * str)) : str :=
  let ranges := sort (JsSet.of_list (PropDef.ranges prop)) in
  match ranges with
  | [] => js "unknown"
  | _ :: _ =>
      let union := join (js " | ") (map (fun r => rangeToTs r classIdentByName) ranges) in
      union ++ js " | Array<" ++ union ++ js ">"
  end.

(** ** Inherited properties *)

(** The inner [walk] of [collectAllPropsForClass], threading the two sets
    it mutates; [None] when the fuel runs out. *)
Fixpoint walk (fuel : nat) (classes : Classes) (name : str)
    (st : list str * list str) : option (list str * list str) :=
  match fuel with
  | O => None
  | S fuel =>
      let '(seen, out) := st in
      if JsSet.has name seen then Some (seen, out)
      else
        let seen := JsSet.add name seen in
        match JsMap.get name classes with
        | None => Some (seen, out)
        | Some cls =>
            let out := foldl (fun out p => JsSet.add p out) out (ClassDef.properties cls) in
            foldl (fun st parent => st ≫= walk fuel classes parent)
                  (Some (seen, out)) (ClassDef.parents cls)
        end
  end.

(** A nested call is made only on a class that is not in [seen] yet, so the
    depth of the recursion is bounded by the number of classes. *)
Definition collectAllPropsForClass (clsName : str) (classes : Classes) : option (list str) :=
  snd <$> walk (S (length classes)) classes clsName ([], []).

(** ** The emitter *)

(** One [export interface] block, before it is printed. *)
Record Interface := {
  ident : str;
  parentIdents : list str;
  schemaName : str;
  fields : list (str * str)  (* property name, type expression *)
}.

(** The identifier table: [classIdentByName.set(schemaName, toTsIdent(schemaName))]
    for every name of the linear order. *)
Definition identTable (sortedSchemaNames : list str) : list (str * str) :=
  foldl (fun tbl n => JsMap.set n (toTsIdent n) tbl) [] sortedSchemaNames.

(** The body of the emitting loop for one class.  [classes.get(schemaName)!]
    is followed by [cls.parents], a TypeError ([None]) when the class is
    absent; an absent identifier would only print as [undefined]. *)
Definition interfaceOf (classes : Classes) (props : Props)
    (classIdentByName : list (str * str)) (schemaName : str) : option Interface :=
  cls ← JsMap.get schemaName classes;
  let ident := default (js "undefined") (JsMap.get schemaName classIdentByName) in
  let parentSchemaNames :=
    List.filter (fun p => JsMap.has p classes) (ClassDef.parents cls) in
  let parentIdents :=
    List.filter truthy (omap (fun p => JsMap.get p classIdentByName) parentSchemaNames) in
  allProps ← sort <$> collectAllPropsForClass schemaName classes;
  let fields :=
    omap (fun propName =>
            prop ← JsMap.get propName props;
            Some (propName, propToTs prop classIdentByName)) allProps in
  Some {| ident := ident; parentIdents := parentIdents;
          schemaName := schemaName; fields := fields |}.

(** The interfaces [generateTs] prints, in the order it prints them. *)
Definition interfaces (classes : Classes) (props : Props) : option (list Interface) :=
  sortedSchemaNames ← topoSortClasses classes;
  mapM (interfaceOf classes props (identTable sortedSchemaNames)) sortedSchemaNames.

Definition newline : str := [10%N].
Definition quoted (s : string) : str := [34%N] ++ js s ++ [34%N].

Definition header : str :=
  join newline
    [ js "/* eslint-disable */";
      js "// AUTO-GENERATED FILE. DO NOT EDIT.";
      [];
      js "export type SchemaContext = " ++ quoted "https://schema.org" ++ js " | (string & {});";
      js "export type WithContext<T> = T & { " ++ quoted "@context" ++ js ": SchemaContext };";
      [];
      js "export type JsonLdCore = {";
      js "  " ++ quoted "@context" ++ js "?: SchemaContext;";
      js "  " ++ quoted "@type" ++ js "?: string;";
      js "  " ++ quoted "@id" ++ js "?: string;";
      js "};";
      [];
      [] ].

Section Printer.
(** [JSON.stringify] on a string, the quoted literal, is the runtime's. *)
Context (JSON_stringify : str → str).

Definition printInterface (i : Interface) : str :=
  let extendsClause :=
    match parentIdents i with
    | [] => js " extends JsonLdCore"
    | _ :: _ => js " extends JsonLdCore, " ++ join (js ", ") (parentIdents i)
    end in
  join newline
    ([ js "export interface " ++ ident i ++ extendsClause ++ js " {";
       js "  " ++ quoted "@type" ++ js "?: " ++ JSON_stringify (schemaName i)
         ++ js " | (string & {});" ]
     ++ map (fun '(propName, tsType) =>
               js "  " ++ JSON_stringify propName ++ js "?: " ++ tsType ++ js ";")
            (fields i)
     ++ [ js "}" ++ newline ]).

Definition generateTs (classes : Classes) (props : Props) : option str :=
  sortedSchemaNames ← topoSortClasses classes;
  let classIdentByName := identTable sortedSchemaNames in
  decls ← mapM (interfaceOf classes props classIdentByName) sortedSchemaNames;
  let identOf := fun schemaName =>
    default (js "undefined") (JsMap.get schemaName classIdentByName) in
  let typeNamesUnion :=
    join (js " | ") (map JSON_stringify sortedSchemaNames) in
  let mapEntries :=
    join newline
      (map (fun schemaName =>
              js "  " ++ JSON_stringify schemaName ++ js ": " ++ identOf schemaName ++ js ";")
           sortedSchemaNames) in
  let nameToIdentEntries :=
    join newline
      (map (fun schemaName =>
              js "  " ++ JSON_stringify schemaName ++ js ": "
              ++ JSON_stringify (identOf schemaName) ++ js ",")
           sortedSchemaNames) in
  Some (join newline
    ([ header ] ++ map printInterface decls
     ++ [ js "export type SchemaTypeName = " ++ typeNamesUnion ++ js ";" ++ newline;
          js "export type SchemaTypeMap = {" ++ newline ++ mapEntries ++ newline
            ++ js "};" ++ newline;
          js "export const __SCHEMA_NAME_TO_TS_IDENT__ = {" ++ newline
            ++ nameToIdentEntries ++ newline ++ js "} as const;" ++ newline ])).
End Printer.

(** The type names the generated module declares: those of the header, one
    per interface, and the two closing aliases. *)
Definition declaredTypes (decls : list Interface) : list str :=
  [ js "SchemaContext"; js "WithContext"; js "JsonLdCore" ]
  ++ map ident decls
  ++ [ js "SchemaTypeName"; js "SchemaTypeMap" ].

(** ** The script-safe serializer *)

(** [s.replace(/c/g, rep)] for a single code unit [c] and a replacement
    without [$] patterns. *)
Definition replaceAll (c : N) (rep : str) (s : str) : str :=
  s ≫= fun x => if decide (x = c) then rep else [x].

Definition lt_sign : N := 60.
Definition gt_sign : N := 62.
Definition ampersand : N := 38.
Definition line_separator : N := 8232.      (* U+2028 *)
Definition paragraph_separator : N := 8233. (* U+2029 *)

Section Stringify.
(** [JSON.stringify] is the runtime's.  It yields [undefined] for a value
    with no JSON form and throws on a cyclic or BigInt one; in both cases
    [json.replace] never produces a string: [None]. *)
Context {value : Type} (JSON_stringify : value → option str).

Definition safeJsonLdStringify (v : value) : option str :=
  json ← JSON_stringify v;
  Some (replaceAll paragraph_separator (js "\u2029")
         (replaceAll line_separator (js "\u2028")
           (replaceAll ampersand (js "\u0026")
             (replaceAll gt_sign (js "\u003e")
               (replaceAll lt_sign (js "\u003c") json))))).
End Stringify.

(** ** What the specification says of the adapter and the serializer *)

(** The objects the specification lets through: named nodes and literals. *)
Definition named_or_literal (q : Quad) : bool :=
  isNamedNode (object q) || isLiteral (object q).

(** The specification's reading of [getObjects]: the value of every
    matching quad whose object is a named node or a literal. *)
Definition objects_spec (quads : list Quad) : list str :=
  map (fun q => value (object q)) (List.filter named_or_literal quads).

(** The code units a [<script>] body must not contain verbatim. *)
Definition unsafe_units : list N :=
  [lt_sign; gt_sign; ampersand; line_separator; paragraph_separator].

(** The escape of one code unit of the JSON text. *)
Definition escape (c : N) : str :=
  if decide (c = lt_sign) then js "\u003c"
  else if decide (c = gt_sign) then js "\u003e"
  else if decide (c = ampersand) then js "\u0026"
  else if decide (c = line_separator) then js "\u2028"
  else if decide (c = paragraph_separator) then js "\u2029"
  else [c].

(** ** What the specification says of the linearizer *)

(** A class mapping as the extractor builds it: one entry per class name,
    filed under that name. *)
Definition wf_classes (classes : Classes) : Prop :=
  NoDup (JsMap.keys classes) ∧ ∀ k c, (k, c) ∈ classes → ClassDef.name c = k.

(** [P] is a resolvable parent of class [C]. *)
Definition parent_of (classes : Classes) (C P : str) : Prop :=
  ∃ c, JsMap.get C classes = Some c
       ∧ P ∈ ClassDef.parents c ∧ P ∈ JsMap.keys classes.

(** [P] lies on a cycle of parent edges, or one of its ancestors does. *)
Definition cyclic_ancestry (classes : Classes) (P : str) : Prop :=
  ∃ x, rtc (parent_of classes) P x ∧ tc (parent_of classes) x x.

(** [a] stands before [b] in [out]. *)
Definition precedes (out : list str) (a b : str) : Prop :=
  ∃ i j, out !! i = Some a ∧ out !! j = Some b ∧ i < j.

(** The edges the second loop of [topoSortClasses] records, in the order it
    meets them: (class, parent) for every parent entry that resolves. *)
Definition resolved_parents (classes : Classes) (c : ClassDef.t) : list str :=
  filter (fun p => p ∈ JsMap.keys classes) (ClassDef.parents c).

Definition edges_of (classes : Classes) (cs : list ClassDef.t) : list (str * str) :=
  c ← cs; (fun p => (ClassDef.name c, p)) <$> resolved_parents classes c.

(** The recorded parents of [X], one per entry. *)
Definition preds (es : list (str * str)) (X : str) : list str :=
  (filter (fun e => e.1 = X) es).*2.

(** ** Invariants of the linearizer *)

(** The state of the two tables once the edges [es] are recorded. *)
Definition tables_record (classes : Classes) (es : list (str * str))
    (st : gmap str Z * gmap str (list str)) : Prop :=
  (∀ X, indeg_of st.1 X = Z.of_nat (length (preds es X)))
  ∧ (∀ p, p ∈ JsMap.keys classes → is_Some (st.2 !! p))
  ∧ (∀ p l, st.2 !! p = Some l → NoDup l ∧ ∀ X, X ∈ l ↔ (X, p) ∈ es).

(** How many recorded parents of [X] stand in [out]. *)
Definition emitted_parents (es : list (str * str)) (out : list str) (X : str) : nat :=
  length (filter (fun p => p ∈ preds es X) out).

(** The invariant of the [while] loop over the queue: nothing is queued or
    emitted twice; every counter is the number of recorded parent entries
    minus the number of emitted parents; exactly the names whose counter is
    zero are queued or emitted; every emitted name stands after all its
    recorded parents. *)
Record kahn_inv (universe : list str) (es : list (str * str))
    (indeg : gmap str Z) (q out : list str) : Prop := {
  inv_nodup : NoDup (out ++ q);
  inv_count : ∀ X, indeg_of indeg X
                   = (Z.of_nat (length (preds es X))
                      - Z.of_nat (emitted_parents es out X))%Z;
  inv_universe : ∀ X, X ∈ out ++ q → X ∈ universe;
  inv_ready : ∀ X, X ∈ universe → indeg_of indeg X = 0%Z → X ∈ out ++ q;
  inv_zero : ∀ X, X ∈ out ++ q → indeg_of indeg X = 0%Z;
  inv_order : ∀ X p, X ∈ out → (X, p) ∈ es → precedes out p X
}.

(** ** What the specification says of inherited properties *)

(** [p] is listed among the parents of class [X] (resolvable or not). *)
Definition listed_parent (classes : Classes) (X p : str) : Prop :=
  ∃ c, JsMap.get X classes = Some c ∧ p ∈ ClassDef.parents c.

(** [p] is declared by [C] itself or by an ancestor of [C] that can be
    reached through classes of the mapping. *)
Definition own_or_inherited (classes : Classes) (C p : str) : Prop :=
  ∃ A cls, rtc (listed_parent classes) C A
           ∧ JsMap.get A classes = Some cls ∧ p ∈ ClassDef.properties cls.

(** Every property attached to a class has a definition: the extractor
    attaches a property only while it iterates over the definitions. *)
Definition props_closed (classes : Classes) (props : Props) : Prop :=
  ∀ k c p, JsMap.get k classes = Some c → p ∈ ClassDef.properties c →
           p ∈ JsMap.keys props.

(** ** Invariants of the property collection *)

(** The class names [walk] has not met yet. *)
Definition unseen (classes : Classes) (seen : list str) : list str :=
  filter (fun k => k ∉ seen) (JsMap.keys classes).

(** What a walk from the names [start] does to [(seen, out)]: it only adds;
    it visits the start names; what it adds to [seen] is reachable from a
    start name and has all its listed parents visited; what it adds to
    [out] are the properties of the classes it adds to [seen]. *)
Definition walk_post (classes : Classes) (start : list str)
    (st st' : list str * list str) : Prop :=
  (∀ x, x ∈ st.1 → x ∈ st'.1)
  ∧ (∀ x, x ∈ start → x ∈ st'.1)
  ∧ (∀ x, x ∈ st'.1 → x ∈ st.1 ∨ ∃ s, s ∈ start ∧ rtc (listed_parent classes) s x)
  ∧ (∀ x y, x ∈ st'.1 → x ∉ st.1 → listed_parent classes x y → y ∈ st'.1)
  ∧ (∀ p, p ∈ st'.2 ↔
          (p ∈ st.2 ∨ ∃ x cls, x ∈ st'.1 ∧ (x ∉ st.1)
                               ∧ JsMap.get x classes = Some cls
                               ∧ p ∈ ClassDef.properties cls))
  ∧ (NoDup st.2 → NoDup st'.2).

(** ** What the extractor guarantees *)

(** Every entry of a map is filed under the name it carries. *)
Definition filed_by_name {V : Type} (name : V → str) (m : list (str * V)) : Prop :=
  NoDup (JsMap.keys m) ∧ ∀ k v, (k, v) ∈ m → name v = k.

(** A graph as [buildGraph] returns it. *)
Definition wf_graph (g : Classes * Props) : Prop :=
  wf_classes g.1
  ∧ filed_by_name PropDef.name g.2
  ∧ props_closed g.1 g.2
  ∧ ∀ k c p, (k, c) ∈ g.1 → p ∈ ClassDef.parents c → p ∈ JsMap.keys g.1.

(** What the fifth loop keeps: names and parents stay, and every attached
    property is the name of a definition. *)
Definition attached (props : Props) (parents_in : list str) (classes : Classes) : Prop :=
  filed_by_name ClassDef.name classes
  ∧ JsMap.keys classes = parents_in
  ∧ (∀ k c p, (k, c) ∈ classes → p ∈ ClassDef.parents c → p ∈ parents_in)
  ∧ (∀ k c p, (k, c) ∈ classes → p ∈ ClassDef.properties c → p ∈ JsMap.keys props).

(** ** Fixtures *)

(** The property [name], on [Person], with a textual range. *)
Definition name_prop : PropDef.t :=
  PropDef.mk (js "name") (js "https://schema.org/name") [js "Person"] [js "Text"].

(** A property with no range at all. *)
Definition orphan_prop : PropDef.t :=
  PropDef.mk (js "orphan") (js "https://schema.org/orphan") [] [].

Definition named (iri : string) : Term := {| termType := NamedNode; value := js iri |}.
Definition literal (text : string) : Term := {| termType := Literal; value := js text |}.
Definition blank (label : string) : Term := {| termType := BlankNode; value := js label |}.
Definition default_graph : Term := {| termType := DefaultGraph; value := [] |}.

Definition triple (s p : string) (o : Term) : Quad :=
  {| subject := named s; predicate := named p; object := o; graph := default_graph |}.

Definition thing_iri : str := js "https://schema.org/Thing".
Definition comment_iri : str := js "http://www.w3.org/2000/01/rdf-schema#comment".

(** A class with a label, an empty comment and an anonymous superclass. *)
Definition comment_store : list Quad :=
  [ triple "https://schema.org/Thing" "http://www.w3.org/2000/01/rdf-schema#label"
      (literal "Thing");
    triple "https://schema.org/Thing" "http://www.w3.org/2000/01/rdf-schema#comment"
      (literal "");
    triple "https://schema.org/Thing" "http://www.w3.org/2000/01/rdf-schema#subClassOf"
      (blank "b0") ].

Definition class (name : string) (parents properties : list string) : str * ClassDef.t :=
  (js name,
   ClassDef.mk (js name) (js "https://schema.org/" ++ js name) (js <$> parents)
     (js <$> properties)).

(** The 2-cycle A → B → A. *)
Definition two_cycle : Classes :=
  [ class "A" ["B"] []; class "B" ["A"] [] ].

(** [A] is a subclass of [B], and [B] and [C] are subclasses of each other:
    [A] is on no cycle, but its parent is. *)
Definition below_a_cycle : Classes :=
  [ class "A" ["B"] []; class "B" ["C"] []; class "C" ["B"] [] ].

(** The minimal fixture: [Thing], and [Person] under it with one property. *)
Definition thing_person : Classes :=
  [ class "Thing" [] []; class "Person" ["Thing"] ["name"] ].

Definition thing_person_props : Props := [ (js "name", name_prop) ].

(** A class whose name is already an identifier, and a range name that is
    no class but sanitizes to the same identifier. *)
Definition some_thing : Classes := [ class "Some_Thing" [] [] ].
Definition some_thing_range : str := js "Some-Thing".

(** The triples of the minimal fixture. *)
Definition thing_person_store : list Quad :=
  [ triple "https://schema.org/Thing" "http://www.w3.org/1999/02/22-rdf-syntax-ns#type"
      (named "http://www.w3.org/2000/01/rdf-schema#Class");
    triple "https://schema.org/Person" "http://www.w3.org/1999/02/22-rdf-syntax-ns#type"
      (named "http://www.w3.org/2000/01/rdf-schema#Class");
    triple "https://schema.org/Person" "http://www.w3.org/2000/01/rdf-schema#subClassOf"
      (named "https://schema.org/Thing");
    triple "https://schema.org/name" "http://www.w3.org/1999/02/22-rdf-syntax-ns#type"
      (named "http://www.w3.org/1999/02/22-rdf-syntax-ns#Property");
    triple "https://schema.org/name" "https://schema.org/domainIncludes"
      (named "https://schema.org/Person");
    triple "https://schema.org/name" "https://schema.org/rangeIncludes"
      (named "https://schema.org/Text") ].

(** A chain A → B → C without any cycle, where [B] lists [C] twice. *)
Definition repeated_parent : Classes :=
  [ class "A" ["B"] []; class "B" ["C"; "C"] []; class "C" [] [] ].

(** ** Tactics *)

(** Case analysis on the comparisons of the character classes. *)
Ltac char_cases :=
  unfold is_ident_part, is_ident_start, is_upper, is_lower, is_digit,
    underscore, dollar;
  repeat match goal with
         | |- context [(?a <=? ?b)%N] => destruct (N.leb_spec a b)
         | |- context [(?a =? ?b)%N] => destruct (N.eqb_spec a b)
         end; simpl; try reflexivity; try discriminate; try lia.

(** The entries of an explicit mapping, one goal per entry. *)
Ltac fixture_entries H :=
  repeat (apply elem_of_cons in H as [[= -> ->]|H]); [..|now apply elem_of_nil in H].


(** ** Further notions used by the properties of the code *)

(** A class without any resolvable parent: its in-degree starts at zero. *)
Definition is_root (classes : Classes) (n : str) : bool :=
  match JsMap.get n classes with
  | Some c => bool_decide (resolved_parents classes c = [])
  | None => true
  end.

(** The class the first loop of [buildGraph] files under the local name
    [k], and the property definition the second loop files under [p]. *)
Definition fresh_class (k : str) : ClassDef.t := ClassDef.mk k (NS.schema ++ k) [] [].
Definition fresh_prop (p : str) : PropDef.t := PropDef.mk p (NS.schema ++ p) [] [].

(** What the fifth loop of [buildGraph] does to the class mapping [m0] once
    the pairs (property name, domain) of [pairs] are processed: the same
    names are filed, every class keeps its name, IRI and parents, and it
    gains the properties paired with its name. *)
Definition attach_frame (pairs : list (str * str)) (m0 m : Classes) : Prop :=
  ∀ k,
    (JsMap.get k m0 = None → JsMap.get k m = None)
    ∧ (∀ c0, JsMap.get k m0 = Some c0 →
         ∃ c, JsMap.get k m = Some c
              ∧ ClassDef.name c = ClassDef.name c0
              ∧ ClassDef.iri c = ClassDef.iri c0
              ∧ ClassDef.parents c = ClassDef.parents c0
              ∧ ∀ p, p ∈ ClassDef.properties c
                     ↔ (p ∈ ClassDef.properties c0 ∨ (p, k) ∈ pairs)).

(** The pairs the fifth loop processes, in order. *)
Definition domain_pairs (ps : list PropDef.t) : list (str * str) :=
  prop ← ps; (fun d => (PropDef.name prop, d)) <$> PropDef.domains prop.

Section Stages.
Context {Store : Type}.
Context (getQuads : Store → option str → option str → option str → option str → list Quad).

(** The quads the first two loops of [buildGraph] iterate over. *)
Definition classQuads (store : Store) : list Quad :=
  getQuads store None (Some IRI.rdfType) (Some IRI.rdfsClass) None.
Definition propQuads (store : Store) : list Quad :=
  getQuads store None (Some IRI.rdfType) (Some IRI.rdfProperty) None.

(** The class mapping after the first loop. *)
Definition declaredClasses (store : Store) : Classes :=
  foldl addClass [] (classQuads store).

(** The resolvable parents the third loop pushes for the class [k]. *)
Definition subClassOf (store : Store) (classes : Classes) (k : str) : list str :=
  List.filter (fun p => JsMap.has p classes)
    (omap localName (getObjects getQuads store (NS.schema ++ k) IRI.rdfsSubClassOf)).
End Stages.

(** ** The node builders and the script body of the React package *)

Module React.

(** [opts?: { context?: SchemaContext }] *)
Record Opts := { context : option str }.

(** [opts?.context] *)
Definition context_of (opts : option Opts) : option str := opts ≫= context.

Definition default_context : str := js "https://schema.org".

Section Builders.
(** The values of a node are the caller's; the builders only put strings
    among them.  An object is the list of its own enumerable properties, in
    definition order. *)
Context {V : Type} (string_value : str → V).

(** [{ ...target, ...source }]: every property of [source] is defined on
    the copy of [target]; a name defined again keeps its place. *)
Definition spread (target source : list (str * V)) : list (str * V) :=
  foldl (fun o kv => JsMap.set kv.1 kv.2 o) target source.

(** [schema(type, data, opts)]; spreading [null] defines nothing. *)
Definition schema (type : str) (data : list (str * V)) (opts : option Opts)
    : list (str * V) :=
  let contextPart :=
    match context_of opts with
    | Some c => if truthy c then [(js "@context", string_value c)] else []
    | None => []
    end in
  spread (JsMap.set (js "@type") (string_value type) (spread [] contextPart)) data.

(** The object [JsonLd] serializes; the parameter default applies to an
    absent [context]. *)
Definition JsonLd_payload (type : str) (data : list (str * V)) (context : option str)
    : list (str * V) :=
  spread
    (JsMap.set (js "@type") (string_value type)
       (JsMap.set (js "@context") (string_value (default default_context context)) []))
    data.
End Builders.

(** The payload of [graph]: its [@context] and its [@graph]. *)
Record GraphPayload (node : Type) := mkGraph { at_context : str; at_graph : list node }.
Arguments mkGraph {node}.
Arguments at_context {node}.
Arguments at_graph {node}.

(** [graph(nodes, opts)]; [[...nodes]] is a copy of the array. *)
Definition graph {node : Type} (nodes : list node) (opts : option Opts)
    : GraphPayload node :=
  mkGraph (default default_context (context_of opts)) nodes.

(** The object [JsonLdGraph] serializes. *)
Definition JsonLdGraph_payload {node : Type} (nodes : list node) (context : option str)
    : GraphPayload node :=
  graph nodes (Some {| context := Some (default default_context context) |}).

Section Script.
Context {value : Type} (JSON_stringify : value → option str).

(** [json ?? safeJsonLdStringify(payload)], the body of the script tag of
    both components; the payload is serialized only when [json] is absent. *)
Definition html (json : option str) (payload : value) : option str :=
  match json with
  | Some text => Some text
  | None => safeJsonLdStringify JSON_stringify payload
  end.
End Script.

End React.

(** * Properties *)

(** ** Strings, sorting, sets and maps *)

Section StringOrder.

Lemma str_compare_refl a : str_compare a a = Eq.
Proof. induction a as [|x a IH]; simpl; [reflexivity|]. now rewrite N.compare_refl. Qed.

Lemma str_compare_eq a b : str_compare a b = Eq → a = b.
Proof.
  revert b. induction a as [|x a IH]; intros [|y b]; simpl; try discriminate; auto.
  destruct (N.compare_spec x y); try discriminate.
  intros ?%IH. congruence.
Qed.

Lemma str_compare_opp a b : str_compare b a = CompOpp (str_compare a b).
Proof.
  revert b. induction a as [|x a IH]; intros [|y b]; simpl; try reflexivity.
  rewrite (N.compare_antisym x y). destruct (x ?= y)%N; simpl; auto.
Qed.

Lemma str_lt_trans a b c : str_lt a b → str_lt b c → str_lt a c.
Proof.
  unfold str_lt. revert b c.
  induction a as [|x a IH]; intros [|y b] [|z c]; simpl; try discriminate; auto.
  destruct (N.compare_spec x y), (N.compare_spec y z); subst;
    try discriminate; intros H1 H2.
  - rewrite N.compare_refl. eauto.
  - now apply N.compare_lt_iff in H0 as ->.
  - now apply N.compare_lt_iff in H as ->.
  - assert (x < z)%N as ->%N.compare_lt_iff by lia. reflexivity.
Qed.

Lemma str_le_lt_eq a b : str_le a b ↔ str_lt a b ∨ a = b.
Proof.
  unfold str_le, str_lt. split.
  - destruct (str_compare a b) eqn:E; [right; now apply str_compare_eq | now left | congruence].
  - intros [-> | ->]; [discriminate | rewrite str_compare_refl; discriminate].
Qed.

Lemma str_lt_irrefl a : ¬ str_lt a a.
Proof. unfold str_lt. now rewrite str_compare_refl. Qed.

Global Instance str_le_trans : Transitive str_le.
Proof.
  intros a b c [H1 | ->]%str_le_lt_eq [H2 | ->]%str_le_lt_eq;
    apply str_le_lt_eq; eauto using str_lt_trans.
Qed.

Global Instance str_le_total : Total str_le.
Proof.
  intros a b. unfold str_le. rewrite (str_compare_opp a b).
  destruct (str_compare a b); simpl; [left | left | right]; discriminate.
Qed.

Lemma sort_perm l : sort l ≡ₚ l.
Proof. apply merge_sort_Permutation. Qed.

Lemma sort_elem_of l x : x ∈ sort l ↔ x ∈ l.
Proof. now rewrite sort_perm. Qed.

Lemma sort_NoDup l : NoDup l → NoDup (sort l).
Proof. now rewrite sort_perm. Qed.

Lemma sort_length l : length (sort l) = length l.
Proof. now rewrite sort_perm. Qed.

(** A list sorted for [≤] without repetition is sorted for [<]. *)
Lemma StronglySorted_le_lt l :
  StronglySorted str_le l → NoDup l → StronglySorted str_lt l.
Proof.
  induction 1 as [|x l Hl IH Hx]; intros Hnd; constructor.
  - apply IH. now apply NoDup_cons_1_2 in Hnd.
  - apply NoDup_cons in Hnd as [Hnotin _].
    rewrite Forall_forall in Hx |- *. intros y Hy.
    destruct (proj1 (str_le_lt_eq x y) (Hx y Hy)) as [?| ->]; [assumption|contradiction].
Qed.

Lemma sort_sorted l : NoDup l → StronglySorted str_lt (sort l).
Proof.
  intros Hnd. apply StronglySorted_le_lt; [|now apply sort_NoDup].
  apply StronglySorted_merge_sort; apply _.
Qed.

End StringOrder.

Section SetsAndMaps.

Lemma JsSet_add_elem_of x y s : x ∈ JsSet.add y s ↔ x = y ∨ x ∈ s.
Proof.
  unfold JsSet.add. case_decide as Hy.
  - split; [auto | intros [-> | ?]; auto].
  - rewrite elem_of_app, list_elem_of_singleton. tauto.
Qed.

Lemma JsSet_add_NoDup y s : NoDup s → NoDup (JsSet.add y s).
Proof.
  unfold JsSet.add. case_decide as Hy; [auto|]. intros Hs.
  apply NoDup_app. split_and!; [assumption| |apply NoDup_singleton].
  intros x Hx ->%list_elem_of_singleton. contradiction.
Qed.

Lemma JsSet_fold_add_elem_of l s x :
  x ∈ foldl (fun s x => JsSet.add x s) s l ↔ x ∈ s ∨ x ∈ l.
Proof.
  revert s. induction l as [|y l IH]; intros s; simpl.
  - rewrite elem_of_nil. tauto.
  - rewrite IH, JsSet_add_elem_of, elem_of_cons. tauto.
Qed.

Lemma JsSet_fold_add_NoDup l s :
  NoDup s → NoDup (foldl (fun s x => JsSet.add x s) s l).
Proof.
  revert s. induction l as [|y l IH]; intros s Hs; simpl; [assumption|].
  apply IH. now apply JsSet_add_NoDup.
Qed.

Lemma JsSet_of_list_elem_of l x : x ∈ JsSet.of_list l ↔ x ∈ l.
Proof. unfold JsSet.of_list. rewrite JsSet_fold_add_elem_of, elem_of_nil. tauto. Qed.

Lemma JsSet_of_list_NoDup l : NoDup (JsSet.of_list l).
Proof. apply JsSet_fold_add_NoDup. constructor. Qed.

Context {V : Type}.
Implicit Types m : list (str * V).

Lemma JsMap_get_Some m k v : JsMap.get k m = Some v → (k, v) ∈ m.
Proof.
  induction m as [|[k' v'] m IH]; simpl; [discriminate|].
  case_decide as Hk.
  - intros [= ->]. subst. left.
  - intros ?%IH. now right.
Qed.

Lemma JsMap_get_None m k : JsMap.get k m = None ↔ k ∉ JsMap.keys m.
Proof.
  unfold JsMap.keys. induction m as [|[k' v'] m IH]; simpl.
  - split; [intros _; apply not_elem_of_nil | reflexivity].
  - rewrite not_elem_of_cons. case_decide as Hk; [|tauto].
    split; [discriminate | intros [? _]; contradiction].
Qed.

Lemma JsMap_has_keys m k : JsMap.has k m = true ↔ k ∈ JsMap.keys m.
Proof.
  unfold JsMap.has. destruct (JsMap.get k m) eqn:E.
  - split; [intros _|reflexivity].
    destruct (decide (k ∈ JsMap.keys m)) as [|Hn]; [assumption|].
    apply JsMap_get_None in Hn. congruence.
  - apply JsMap_get_None in E. split; [discriminate | contradiction].
Qed.

Lemma JsMap_elem_of_get m k v :
  NoDup (JsMap.keys m) → (k, v) ∈ m → JsMap.get k m = Some v.
Proof.
  unfold JsMap.keys. induction m as [|[k' v'] m IH]; simpl; intros Hnd Hin.
  - now apply elem_of_nil in Hin.
  - apply NoDup_cons in Hnd as [Hk' Hnd]. apply elem_of_cons in Hin as [[= -> ->]|Hin].
    + now rewrite decide_True.
    + rewrite decide_False; [auto|]. intros ->. apply Hk'.
      apply list_elem_of_fmap. now exists (k', v).
Qed.

Lemma JsMap_get_set m k k' v :
  JsMap.get k (JsMap.set k' v m) = if decide (k = k') then Some v else JsMap.get k m.
Proof.
  induction m as [|[k0 v0] m IH]; simpl.
  - reflexivity.
  - destruct (decide (k' = k0)) as [->|Hne]; simpl.
    + destruct (decide (k = k0)); reflexivity.
    + rewrite IH. destruct (decide (k = k0)) as [->|]; [|reflexivity].
      now rewrite decide_False by congruence.
Qed.

End SetsAndMaps.

(** ** The identifier sanitizer *)

Section Sanitizer.

Lemma ident_part_split c : is_ident_part c = is_ident_start c || is_digit c.
Proof. char_cases. Qed.

Lemma ident_start_not_digit c : is_ident_start c = true → is_digit c = false.
Proof. char_cases. Qed.

Lemma underscore_start : is_ident_start underscore = true.
Proof. reflexivity. Qed.

Lemma underscore_part : is_ident_part underscore = true.
Proof. reflexivity. Qed.

Lemma clean_part c : is_ident_part (clean c) = true.
Proof. unfold clean. destruct (is_ident_part c) eqn:E; [exact E | reflexivity]. Qed.

Lemma clean_all_part s : forallb is_ident_part (map clean s) = true.
Proof. induction s as [|c s IH]; simpl; [reflexivity|]. now rewrite clean_part. Qed.

Lemma clean_fixed s : forallb is_ident_part s = true → map clean s = s.
Proof.
  induction s as [|c s IH]; simpl; [reflexivity|].
  intros [Hc Hs]%andb_prop. unfold clean at 1. rewrite Hc. f_equal. auto.
Qed.

Lemma forallb_part_snoc s :
  forallb is_ident_part s = true → forallb is_ident_part (s ++ [underscore]) = true.
Proof. intros H. rewrite forallb_app, H. reflexivity. Qed.

Lemma matches_ident_snoc s :
  matches_ident s = true → matches_ident (s ++ [underscore]) = true.
Proof.
  destruct s as [|c s]; simpl; [discriminate|].
  intros [Hc Hs]%andb_prop. rewrite Hc. simpl. now apply forallb_part_snoc.
Qed.

Lemma matches_ident_part s : matches_ident s = true → forallb is_ident_part s = true.
Proof.
  destruct s as [|c s]; simpl; [reflexivity|].
  intros [Hc Hs]%andb_prop. rewrite ident_part_split, Hc. exact Hs.
Qed.

(** No reserved word ends with an underscore, so the suffix of step 4
    always leaves the reserved set. *)
Lemma reserved_no_trailing_underscore :
  Forall (fun w => last w ≠ Some underscore) TS_RESERVED.
Proof. apply Forall_fold_right. vm_compute. repeat split; discriminate. Qed.

Lemma snoc_not_reserved s : s ++ [underscore] ∉ TS_RESERVED.
Proof.
  intros Hin.
  pose proof (proj1 (Forall_forall _ _) reserved_no_trailing_underscore _ Hin) as H.
  apply H. apply last_snoc.
Qed.

Lemma toTsIdent_prefixed s :
  toTsIdent s =
  if JsSet.has (prefixed s) TS_RESERVED then prefixed s ++ [underscore] else prefixed s.
Proof. reflexivity. Qed.

Lemma prefixed_matches s : matches_ident (prefixed s) = true.
Proof.
  unfold prefixed. pose proof (clean_all_part s) as Hall.
  destruct (map clean s) as [|c r]; simpl in *; [reflexivity|].
  apply andb_prop in Hall as [Hc Hr].
  destruct (is_digit c) eqn:Hd; simpl.
  - rewrite Hc, Hr. reflexivity.
  - rewrite ident_part_split, Hd, orb_false_r in Hc. rewrite Hc. simpl.
    rewrite Hc. exact Hr.
Qed.

Lemma toTsIdent_valid s : valid_ident (toTsIdent s).
Proof.
  rewrite toTsIdent_prefixed. unfold JsSet.has. case_bool_decide as Hres.
  - split; [apply matches_ident_snoc, prefixed_matches | apply snoc_not_reserved].
  - split; [apply prefixed_matches | exact Hres].
Qed.

Lemma toTsIdent_fixed t : valid_ident t → toTsIdent t = t.
Proof.
  intros [Hm Hres]. rewrite toTsIdent_prefixed.
  assert (prefixed t = t) as ->.
  { unfold prefixed. rewrite (clean_fixed t (matches_ident_part t Hm)).
    destruct t as [|c r]; simpl in *; [discriminate|].
    apply andb_prop in Hm as [Hc _].
    rewrite (ident_start_not_digit c Hc). simpl. now rewrite Hc. }
  unfold JsSet.has. now rewrite bool_decide_eq_false_2.
Qed.

(** C3: the sanitizer is a total function whose result, for every input
    string, matches [[A-Za-z_$][A-Za-z0-9_$]*] and is not a reserved word;
    it sends "3DModel" to "_3DModel", "Some-Thing" to "Some_Thing" and
    "type" to "type_". *)
Theorem toTsIdent_total_valid :
  (∀ s : str, ∃ out, toTsIdent s = out
      ∧ matches_ident out = true ∧ out ∉ TS_RESERVED)
  ∧ toTsIdent (js "3DModel") = js "_3DModel"
  ∧ toTsIdent (js "Some-Thing") = js "Some_Thing"
  ∧ toTsIdent (js "type") = js "type_".
Proof.
  split; [|repeat split; vm_compute; reflexivity].
  intros s. exists (toTsIdent s). split; [reflexivity|]. apply toTsIdent_valid.
Qed.

(** C4: the sanitizer is idempotent, [sanitize (sanitize s) = sanitize s]
    for every input string. *)
Theorem toTsIdent_idempotent (s : str) : toTsIdent (toTsIdent s) = toTsIdent s.
Proof. apply toTsIdent_fixed, toTsIdent_valid. Qed.

End Sanitizer.

(** ** The type mapper *)

Section TypeMapper.

Implicit Types (tbl : list (str * str)) (prop : PropDef.t).

Lemma rangeToTs_string r tbl :
  r ∈ [js "Text"; js "URL"; js "Date"; js "DateTime"; js "Time"] →
  rangeToTs r tbl = js "string".
Proof.
  rewrite !elem_of_cons, elem_of_nil.
  intros [->|[->|[->|[->|[->|[]]]]]]; reflexivity.
Qed.

Lemma rangeToTs_boolean tbl : rangeToTs (js "Boolean") tbl = js "boolean".
Proof. reflexivity. Qed.

Lemma rangeToTs_number r tbl :
  r ∈ [js "Number"; js "Integer"; js "Float"] → rangeToTs r tbl = js "number".
Proof.
  rewrite !elem_of_cons, elem_of_nil.
  intros [->|[->|[->|[]]]]; reflexivity.
Qed.

Lemma rangeToTs_default r tbl :
  r ∉ primitive_names →
  rangeToTs r tbl = default (toTsIdent r) (JsMap.get r tbl) ++ js " | string".
Proof.
  unfold primitive_names. rewrite !not_elem_of_cons. intros H.
  destruct_and!. unfold rangeToTs.
  rewrite !bool_decide_eq_false_2; [reflexivity|..];
    rewrite ?elem_of_cons, ?elem_of_nil; try tauto.
Qed.

Lemma ranges_sorted prop :
  StronglySorted str_lt (sort (JsSet.of_list (PropDef.ranges prop)))
  ∧ ∀ r, r ∈ sort (JsSet.of_list (PropDef.ranges prop)) ↔ r ∈ PropDef.ranges prop.
Proof.
  split.
  - apply sort_sorted, JsSet_of_list_NoDup.
  - intros r. now rewrite sort_elem_of, JsSet_of_list_elem_of.
Qed.

(** C6: a property with at least one range is typed from its range names
    deduplicated and sorted by code units; each name is mapped (the
    primitives to [string], [boolean] or [number], any other name to its
    class identifier in union with [string]), the results are joined into a
    union, and the type is that union or an [Array] of it.  A property whose
    only range is [Text] gets [string | Array<string>]. *)
Theorem propToTs_union prop tbl :
  PropDef.ranges prop ≠ [] →
  ∃ rs union,
    StronglySorted str_lt rs
    ∧ (∀ r, r ∈ rs ↔ r ∈ PropDef.ranges prop)
    ∧ union = join (js " | ") (map (fun r => rangeToTs r tbl) rs)
    ∧ propToTs prop tbl = union ++ js " | Array<" ++ union ++ js ">"
    ∧ (∀ r,
         (r ∈ [js "Text"; js "URL"; js "Date"; js "DateTime"; js "Time"] →
            rangeToTs r tbl = js "string")
         ∧ (r = js "Boolean" → rangeToTs r tbl = js "boolean")
         ∧ (r ∈ [js "Number"; js "Integer"; js "Float"] →
              rangeToTs r tbl = js "number")
         ∧ (r ∉ primitive_names →
              rangeToTs r tbl
              = default (toTsIdent r) (JsMap.get r tbl) ++ js " | string"))
    ∧ (PropDef.ranges prop = [js "Text"] →
         propToTs prop tbl = js "string | Array<string>").
Proof.
  intros Hne.
  destruct (ranges_sorted prop) as [Hsorted Hmem].
  exists (sort (JsSet.of_list (PropDef.ranges prop))). eexists.
  split_and!; [exact Hsorted | exact Hmem | reflexivity | | | ].
  - unfold propToTs.
    destruct (sort (JsSet.of_list (PropDef.ranges prop))) as [|r rs] eqn:E; [|reflexivity].
    destruct (PropDef.ranges prop) as [|r0 rest]; [contradiction|].
    exfalso. eapply elem_of_nil. apply Hmem. left.
  - intros r. split_and!.
    + apply rangeToTs_string.
    + intros ->. apply rangeToTs_boolean.
    + apply rangeToTs_number.
    + apply rangeToTs_default.
  - intros E. unfold propToTs. rewrite E. reflexivity.
Qed.

Lemma propToTs_union_witness :
  propToTs name_prop [] = js "string | Array<string>".
Proof.
  destruct (propToTs_union name_prop []) as (rs & union & _ & _ & _ & _ & _ & H).
  - discriminate.
  - apply H. reflexivity.
Defined.

(** C7: a property with no range is typed [unknown]; the mapper is a total
    function and raises nothing. *)
Theorem propToTs_unknown prop tbl :
  PropDef.ranges prop = [] → propToTs prop tbl = js "unknown".
Proof. intros E. unfold propToTs. rewrite E. reflexivity. Qed.

Lemma propToTs_unknown_witness : propToTs orphan_prop [] = js "unknown".
Proof. apply propToTs_unknown. reflexivity. Defined.

End TypeMapper.

(** ** The triple store adapter *)

Section AdapterFacts.

Context {Store : Type}.
Context (getQuads : Store → option str → option str → option str → option str → list Quad).

Lemma filter_truthy_map (quads : list Quad) :
  List.filter truthy
    (map (fun q => if named_or_literal q then value (object q) else []) quads)
  = map (fun q => value (object q))
      (List.filter (fun q => named_or_literal q && truthy (value (object q))) quads).
Proof.
  induction quads as [|q quads IH]; simpl; [reflexivity|].
  destruct (named_or_literal q); simpl.
  - destruct (truthy (value (object q))); simpl; now rewrite IH.
  - exact IH.
Qed.

(** C8, as the code has it: [getObjects] returns, in store order, the
    values of the matching quads whose object is a named node or a literal
    with a non-empty value; blank nodes, other term kinds and empty values
    are left out. *)
Theorem getObjects_nonempty_values (store : Store) (subject predicate : str) :
  getObjects getQuads store subject predicate
  = map (fun q => value (object q))
      (List.filter (fun q => named_or_literal q && truthy (value (object q)))
         (getQuads store (Some subject) (Some predicate) None None)).
Proof. unfold getObjects. apply filter_truthy_map. Qed.

End AdapterFacts.

(** C8, as stated, fails on a literal with an empty value: the quad matches
    and its object is a literal, yet [filter(Boolean)] drops its value. *)
Lemma getObjects_drops_empty_literal :
  getObjects ListStore.getQuads comment_store thing_iri comment_iri = []
  ∧ objects_spec
      (ListStore.getQuads comment_store (Some thing_iri) (Some comment_iri) None None)
    = [[]]
  ∧ getObjects ListStore.getQuads comment_store thing_iri comment_iri
    ≠ objects_spec
        (ListStore.getQuads comment_store (Some thing_iri) (Some comment_iri) None None).
Proof. vm_compute. split_and!; [reflexivity | reflexivity | discriminate]. Qed.

(** The label is returned; the anonymous superclass is not. *)
Example getObjects_label :
  getObjects ListStore.getQuads comment_store thing_iri
    (js "http://www.w3.org/2000/01/rdf-schema#label") = [js "Thing"]
  ∧ getObjects ListStore.getQuads comment_store thing_iri IRI.rdfsSubClassOf = [].
Proof. vm_compute. split; reflexivity. Qed.

(** ** The script-safe serializer *)

Section Serializer.

Lemma replaceAll_bind c rep s :
  replaceAll c rep s = s ≫= fun x => if decide (x = c) then rep else [x].
Proof. reflexivity. Qed.

Lemma bind_bind_list {A B C} (f : A → list B) (g : B → list C) (l : list A) :
  (l ≫= f) ≫= g = l ≫= fun x => f x ≫= g.
Proof.
  induction l as [|x l IH]; [reflexivity|].
  now rewrite !bind_cons, bind_app, IH.
Qed.

Lemma bind_ext_list {A B} (f g : A → list B) (l : list A) :
  (∀ x, f x = g x) → l ≫= f = l ≫= g.
Proof. intros H. induction l as [|x l IH]; [reflexivity|]. now rewrite !bind_cons, H, IH. Qed.

(** The five replacements in sequence are one pass of [escape]: no
    replacement text contains a code unit that a later one rewrites. *)
Lemma replace_chain_escape (json : str) :
  replaceAll paragraph_separator (js "\u2029")
    (replaceAll line_separator (js "\u2028")
      (replaceAll ampersand (js "\u0026")
        (replaceAll gt_sign (js "\u003e")
          (replaceAll lt_sign (js "\u003c") json))))
  = json ≫= escape.
Proof.
  rewrite !replaceAll_bind, !bind_bind_list. apply bind_ext_list. intros x.
  unfold escape.
  destruct (decide (x = lt_sign)) as [->|H1]; [reflexivity|].
  simpl. rewrite !app_nil_r.
  destruct (decide (x = gt_sign)) as [->|H2]; [reflexivity|].
  simpl. rewrite !app_nil_r.
  destruct (decide (x = ampersand)) as [->|H3]; [reflexivity|].
  simpl. rewrite !app_nil_r.
  destruct (decide (x = line_separator)) as [->|H4]; [reflexivity|].
  simpl. rewrite !app_nil_r.
  destruct (decide (x = paragraph_separator)) as [->|H5]; reflexivity.
Qed.

Lemma escape_safe c : Forall (fun u => u ∉ unsafe_units) (escape c).
Proof.
  unfold escape.
  repeat case_decide;
    [ apply (bool_decide_unpack _); vm_compute; exact I .. | ].
  apply Forall_singleton. unfold unsafe_units.
  rewrite !not_elem_of_cons. split_and!; try assumption. apply not_elem_of_nil.
Qed.

Lemma bind_escape_safe (json : str) :
  Forall (fun u => u ∉ unsafe_units) (json ≫= escape).
Proof.
  induction json as [|c json IH]; [constructor|].
  rewrite bind_cons. apply Forall_app. split; [apply escape_safe | exact IH].
Qed.

Context {value : Type} (JSON_stringify : value → option str).

(** C9: whenever [JSON.stringify] yields a text, [safeJsonLdStringify]
    returns that text with each [<], [>], [&], U+2028 and U+2029 replaced by
    its [\uXXXX] escape, so none of the five occurs in the result; it fails
    only where [JSON.stringify] yields no text. *)
Theorem safeJsonLdStringify_escapes (v : value) :
  match safeJsonLdStringify JSON_stringify v with
  | Some out =>
      (∃ json, JSON_stringify v = Some json ∧ out = json ≫= escape)
      ∧ Forall (fun u => u ∉ unsafe_units) out
  | None => JSON_stringify v = None
  end.
Proof.
  unfold safeJsonLdStringify.
  destruct (JSON_stringify v) as [json|]; simpl; [|reflexivity].
  rewrite replace_chain_escape. split; [eauto | apply bind_escape_safe].
Qed.

End Serializer.

(** On a runtime that serializes a text to itself, a closing tag loses both
    angle brackets. *)
Example safeJsonLdStringify_script :
  safeJsonLdStringify (fun text : str => Some text) (js "</script>")
  = Some (js "\u003c/script\u003e").
Proof. vm_compute. reflexivity. Qed.

(** ** The graph extractor *)

Section MapUpdates.

Context {V : Type}.
Implicit Types m : list (str * V).

Lemma JsMap_set_keys m k v :
  JsMap.keys (JsMap.set k v m)
  = if decide (k ∈ JsMap.keys m) then JsMap.keys m else JsMap.keys m ++ [k].
Proof.
  unfold JsMap.keys. induction m as [|[k' v'] m IH]; [reflexivity|].
  cbn [JsMap.set]. destruct (decide (k = k')) as [->|Hne].
  - rewrite decide_True by (rewrite fmap_cons; left). reflexivity.
  - rewrite !fmap_cons, IH. cbn [fst].
    destruct (decide (k ∈ m.*1)) as [Hin|Hin].
    + rewrite decide_True by now right. reflexivity.
    + rewrite decide_False; [reflexivity|].
      intros [?|?]%elem_of_cons; contradiction.
Qed.

Lemma JsMap_set_NoDup m k v : NoDup (JsMap.keys m) → NoDup (JsMap.keys (JsMap.set k v m)).
Proof.
  intros Hnd. rewrite JsMap_set_keys. case_decide as Hk; [assumption|].
  apply NoDup_app. split_and!; [assumption| |apply NoDup_singleton].
  now intros x Hx ->%list_elem_of_singleton.
Qed.

Lemma JsMap_elem_of_set m k v k' v' :
  (k', v') ∈ JsMap.set k v m → (k' = k ∧ v' = v) ∨ (k', v') ∈ m.
Proof.
  induction m as [|[k0 v0] m IH]; cbn [JsMap.set].
  - intros [= -> ->]%list_elem_of_singleton. now left.
  - destruct (decide (k = k0)) as [->|Hne].
    + intros [[= -> ->]|Hin]%elem_of_cons; [now left | right; now right].
    + intros [[= -> ->]|Hin]%elem_of_cons; [right; left|].
      destruct (IH Hin) as [?|?]; [now left | right; now right].
Qed.

Lemma filed_by_name_set (name : V → str) m k v :
  filed_by_name name m → name v = k → filed_by_name name (JsMap.set k v m).
Proof.
  intros [Hnd Hname] Hv. split; [now apply JsMap_set_NoDup|].
  intros k' v' [[-> ->]|Hin]%JsMap_elem_of_set; auto.
Qed.

Lemma JsMap_keys_fmap (f : V → V) m :
  JsMap.keys (prod_map id f <$> m) = JsMap.keys m.
Proof.
  unfold JsMap.keys. rewrite <- list_fmap_compose.
  apply list_fmap_ext. now intros ? [] ?.
Qed.

Lemma filed_by_name_fmap (name : V → str) (f : V → V) m :
  (∀ v, name (f v) = name v) →
  filed_by_name name m → filed_by_name name (prod_map id f <$> m).
Proof.
  intros Hf [Hnd Hname]. split.
  - now rewrite JsMap_keys_fmap.
  - intros k v ([k0 v0] & [= -> ->] & Hin)%list_elem_of_fmap.
    rewrite Hf. now apply Hname.
Qed.

End MapUpdates.

Section Extractor.

Context {Store : Type}.
Context (getQuads : Store → option str → option str → option str → option str → list Quad).
Context (store : Store).

Lemma addClass_fold quads classes :
  filed_by_name ClassDef.name classes
  ∧ (∀ k c, (k, c) ∈ classes → ClassDef.parents c = [] ∧ ClassDef.properties c = []) →
  filed_by_name ClassDef.name (foldl addClass classes quads)
  ∧ (∀ k c, (k, c) ∈ foldl addClass classes quads →
       ClassDef.parents c = [] ∧ ClassDef.properties c = []).
Proof.
  revert classes. induction quads as [|q quads IH]; intros classes H; [exact H|].
  cbn [foldl]. apply IH. unfold addClass.
  destruct (isNamedNode (subject q)); cbn [negb]; [|exact H].
  destruct (localName (value (subject q))) as [local|]; [|exact H].
  destruct H as [Hfiled Hfresh]. split.
  - now apply filed_by_name_set.
  - intros k c [[-> ->]|Hin]%JsMap_elem_of_set; [split; reflexivity | eauto].
Qed.

Lemma addProp_fold quads props :
  filed_by_name PropDef.name props →
  filed_by_name PropDef.name (foldl addProp props quads).
Proof.
  revert props. induction quads as [|q quads IH]; intros props H; [exact H|].
  cbn [foldl]. apply IH. unfold addProp.
  destruct (isNamedNode (subject q)); cbn [negb]; [|exact H].
  destruct (localName (value (subject q))) as [local|]; [|exact H].
  now apply filed_by_name_set.
Qed.

Lemma attach_attached props ks prop classes d :
  PropDef.name prop ∈ JsMap.keys props →
  attached props ks classes → attached props ks (attach prop classes d).
Proof.
  intros Hprop (Hfiled & Hkeys & Hparents & Hprops). unfold attach.
  destruct (JsMap.get d classes) as [cls|] eqn:Hget; [|now split_and!].
  pose proof (JsMap_get_Some _ _ _ Hget) as Hin.
  split_and!.
  - apply filed_by_name_set; [assumption|]. cbn [ClassDef.name].
    now apply (proj2 Hfiled).
  - rewrite JsMap_set_keys, decide_True; [assumption|].
    apply list_elem_of_fmap. now exists (d, cls).
  - intros k c p [[-> ->]|Hc]%JsMap_elem_of_set; eauto.
  - intros k c p [[-> ->]|Hc]%JsMap_elem_of_set; [|eauto].
    cbn [ClassDef.properties]. intros [->|Hp]%JsSet_add_elem_of; eauto.
Qed.

Lemma attach_fold props ks (ps : list PropDef.t) classes :
  (∀ prop, prop ∈ ps → PropDef.name prop ∈ JsMap.keys props) →
  attached props ks classes →
  attached props ks
    (foldl (fun classes prop => foldl (attach prop) classes (PropDef.domains prop))
       classes ps).
Proof.
  revert classes. induction ps as [|prop ps IH]; intros classes Hps H; [exact H|].
  cbn [foldl]. apply IH; [intros; apply Hps; now right|].
  assert (PropDef.name prop ∈ JsMap.keys props) as Hprop by (apply Hps; left).
  generalize (PropDef.domains prop). intros ds. revert classes H.
  induction ds as [|d ds IHd]; intros classes H; [exact H|].
  cbn [foldl]. apply IHd. now apply attach_attached.
Qed.

(** The extractor returns a well-formed graph from any store. *)
Lemma buildGraph_wf : wf_graph (buildGraph getQuads store).
Proof.
  unfold buildGraph.
  set (classes0 := foldl addClass [] _).
  set (props0 := foldl addProp [] _).
  set (classes1 := prod_map id (resolveParents getQuads store classes0) <$> classes0).
  set (props1 := prod_map id (resolveDomainsAndRanges getQuads store) <$> props0).
  destruct (addClass_fold
              (getQuads store None (Some IRI.rdfType) (Some IRI.rdfsClass) None) [])
    as [Hfiled0 Hfresh0].
  { split; [split; [constructor|]|]; now intros ? ? ?%elem_of_nil. }
  fold classes0 in Hfiled0, Hfresh0.
  assert (filed_by_name PropDef.name props1) as Hprops1.
  { apply filed_by_name_fmap; [reflexivity|]. apply addProp_fold.
    split; [constructor | now intros ? ? ?%elem_of_nil]. }
  assert (attached props1 (JsMap.keys classes1) classes1) as Hclasses1.
  { split_and!.
    - now apply filed_by_name_fmap.
    - reflexivity.
    - intros k c p ([k0 c0] & [= -> ->] & Hin)%list_elem_of_fmap.
      unfold classes1. rewrite JsMap_keys_fmap.
      cbn [resolveParents ClassDef.parents].
      rewrite (proj1 (Hfresh0 _ _ Hin)), app_nil_l.
      intros (pIri & _ & Hp)%list_elem_of_omap.
      destruct (localName pIri) as [pName|]; [|discriminate].
      cbn [mbind option_bind] in Hp.
      destruct (JsMap.has pName classes0) eqn:Hhas; [|discriminate].
      injection Hp as <-. now apply JsMap_has_keys.
    - intros k c p ([k0 c0] & [= -> ->] & Hin)%list_elem_of_fmap.
      cbn [resolveParents ClassDef.properties].
      rewrite (proj2 (Hfresh0 _ _ Hin)). now intros ?%elem_of_nil. }
  pose proof (attach_fold props1 (JsMap.keys classes1) (JsMap.values props1) classes1)
    as Hfinal.
  destruct Hfinal as (Hfiled & Hkeys & Hparents & Hattached); [|assumption|].
  { intros prop ([k p] & -> & Hin)%list_elem_of_fmap. cbn [snd].
    rewrite (proj2 Hprops1 k p Hin). apply list_elem_of_fmap. now exists (k, p). }
  split_and!; cbn [fst snd].
  - exact Hfiled.
  - exact Hprops1.
  - intros k c p Hc%JsMap_get_Some Hp. eauto.
  - intros k c p Hc Hp. rewrite Hkeys. eauto.
Qed.

End Extractor.

(** ** The topological linearizer: the two tables *)

Section Tables.

Context (classes : Classes).

Implicit Types (indeg : gmap str Z) (children : gmap str (list str)).
Implicit Types (es : list (str * str)).

Lemma indeg_of_insert indeg k z X :
  indeg_of (<[k := z]> indeg) X = if decide (k = X) then z else indeg_of indeg X.
Proof. unfold indeg_of. rewrite lookup_insert. now case_decide. Qed.

Lemma preds_snoc es X Y p :
  preds (es ++ [(Y, p)]) X = if decide (Y = X) then preds es X ++ [p] else preds es X.
Proof.
  unfold preds. rewrite filter_app, fmap_app, filter_singleton by exact [].
  simpl. case_decide; simpl; [reflexivity | now rewrite app_nil_r].
Qed.

Lemma elem_of_preds es X p : p ∈ preds es X ↔ (X, p) ∈ es.
Proof.
  unfold preds. rewrite list_elem_of_fmap. split.
  - intros ([X' p'] & -> & [HX Hin]%list_elem_of_filter). simpl in *. now subst.
  - intros Hin. exists (X, p). split; [reflexivity|].
    apply list_elem_of_filter. split; [reflexivity | assumption].
Qed.

Lemma init_tables_lookup names :
  (∀ n, (init_tables names).1 !! n = if decide (n ∈ names) then Some 0%Z else None)
  ∧ (∀ n, (init_tables names).2 !! n = if decide (n ∈ names) then Some [] else None).
Proof.
  unfold init_tables. induction names as [|x names IH] using rev_ind.
  - split; intros n; cbn [foldl fst snd]; rewrite lookup_empty;
      case_decide as Hn; first [now apply elem_of_nil in Hn | reflexivity].
  - rewrite foldl_snoc.
    destruct (foldl _ _ names) as [indeg children]. simpl in *.
    destruct IH as [IH1 IH2].
    split; intros n; rewrite lookup_insert, ?IH1, ?IH2;
      repeat case_decide; subst; try reflexivity; exfalso;
      set_unfold; intuition congruence.
Qed.

Lemma init_tables_record names :
  (∀ n, n ∈ JsMap.keys classes → n ∈ names) →
  tables_record classes [] (init_tables names).
Proof.
  intros Hnames. destruct (init_tables_lookup names) as [H1 H2].
  split_and!.
  - intros X. unfold indeg_of. rewrite H1. now case_decide.
  - intros p Hp. rewrite H2, decide_True by auto. eauto.
  - intros p l. rewrite H2. case_decide; [|discriminate].
    intros [= <-]. split; [constructor|]. intros X. now rewrite !elem_of_nil.
Qed.

Lemma add_edge_skip c st p :
  p ∉ JsMap.keys classes → add_edge classes c st p = Some st.
Proof.
  intros Hp. destruct st as [indeg children]. unfold add_edge.
  destruct (JsMap.has p classes) eqn:E; [|reflexivity].
  now apply JsMap_has_keys in E.
Qed.

Lemma add_edge_record c es st p :
  tables_record classes es st → p ∈ JsMap.keys classes →
  ∃ st', add_edge classes c st p = Some st'
         ∧ tables_record classes (es ++ [(ClassDef.name c, p)]) st'.
Proof.
  destruct st as [indeg children]. intros (Hin & Hdom & Hch) Hp. simpl in *.
  unfold add_edge. rewrite (proj2 (JsMap_has_keys classes p) Hp). simpl.
  destruct (Hdom p Hp) as [s Hs]. rewrite Hs. simpl.
  eexists. split; [reflexivity|]. split_and!; simpl.
  - intros X. rewrite indeg_of_insert, preds_snoc.
    case_decide; subst; rewrite ?length_app, Hin; simpl; lia.
  - intros p' Hp'. apply lookup_insert_is_Some'. auto.
  - intros p' l. rewrite lookup_insert. case_decide as Hpp.
    + subst p'. intros [= <-]. destruct (Hch p s Hs) as [Hnd Hmem]. split.
      * now apply JsSet_add_NoDup.
      * intros X. rewrite JsSet_add_elem_of, Hmem, elem_of_app, list_elem_of_singleton.
        split; [intros [->|?]; auto | intros [?|[= ->]]; auto].
    + intros Hl. destruct (Hch p' l Hl) as [Hnd Hmem]. split; [assumption|].
      intros X. rewrite Hmem, elem_of_app, list_elem_of_singleton.
      split; [auto | intros [?|[= _ ?]]; [assumption | congruence]].
Qed.

Lemma add_edges_fold c ps es st :
  tables_record classes es st →
  ∃ st', foldl (fun st p => st ≫= fun st => add_edge classes c st p) (Some st) ps
         = Some st'
         ∧ tables_record classes
             (es ++ ((fun p => (ClassDef.name c, p))
                       <$> filter (fun p => p ∈ JsMap.keys classes) ps)) st'.
Proof.
  revert es st. induction ps as [|p ps IH]; intros es st Hst; simpl.
  - exists st. now rewrite app_nil_r.
  - destruct (decide (p ∈ JsMap.keys classes)) as [Hp|Hp].
    + destruct (add_edge_record c es st p Hst Hp) as (st1 & -> & Hst1).
      destruct (IH _ _ Hst1) as (st' & -> & Hst').
      exists st'. split; [reflexivity|].
      rewrite filter_cons_True by assumption. simpl.
      now rewrite <- app_assoc in Hst'.
    + rewrite add_edge_skip by assumption.
      rewrite filter_cons_False by assumption. auto.
Qed.

Lemma build_edges_fold cs es st :
  tables_record classes es st →
  ∃ st', foldl (fun st c => st ≫= fun st => add_edges classes st c) (Some st) cs
         = Some st'
         ∧ tables_record classes (es ++ edges_of classes cs) st'.
Proof.
  revert es st. induction cs as [|c cs IH]; intros es st Hst.
  - exists st. unfold edges_of. simpl. now rewrite app_nil_r.
  - change (foldl ?f (Some st) (c :: cs)) with (foldl f (add_edges classes st c) cs).
    unfold add_edges at 2.
    destruct (add_edges_fold c (ClassDef.parents c) es st Hst) as (st1 & -> & Hst1).
    destruct (IH _ _ Hst1) as (st' & -> & Hst').
    exists st'. split; [reflexivity|].
    unfold edges_of in *. rewrite bind_cons, app_assoc. exact Hst'.
Qed.

(** The second loop never meets a missing [children] entry. *)
Lemma build_edges_record names :
  (∀ n, n ∈ JsMap.keys classes → n ∈ names) →
  ∃ st, build_edges classes (init_tables names) = Some st
        ∧ tables_record classes (edges_of classes (JsMap.values classes)) st.
Proof.
  intros Hnames. unfold build_edges.
  apply (build_edges_fold _ []), init_tables_record, Hnames.
Qed.

End Tables.

(** ** The topological linearizer: the queue *)

Section Kahn.

Context (universe : list str) (children : gmap str (list str)).
Context (es : list (str * str)).
Hypothesis children_NoDup : ∀ p, NoDup (children_of children p).
Hypothesis children_edges : ∀ X p, X ∈ children_of children p ↔ (X, p) ∈ es.
Hypothesis edges_universe : ∀ X p, (X, p) ∈ es → X ∈ universe.

Implicit Types (indeg : gmap str Z) (q out : list str).

Lemma filter_ext_elem (P1 P2 : str → Prop)
    `{!∀ x, Decision (P1 x), !∀ x, Decision (P2 x)} (l : list str) :
  (∀ x, x ∈ l → P1 x ↔ P2 x) → filter P1 l = filter P2 l.
Proof.
  induction l as [|a l IH]; intros Hext; [reflexivity|].
  rewrite !filter_cons. rewrite IH by (intros; apply Hext; now right).
  apply decide_ext, Hext. left.
Qed.

Lemma emitted_parents_le out X :
  NoDup out → emitted_parents es out X ≤ length (preds es X).
Proof.
  intros Hnd. unfold emitted_parents. apply submseteq_length, NoDup_submseteq.
  - now apply NoDup_filter.
  - now intros p [? _]%list_elem_of_filter.
Qed.

Lemma emitted_parents_snoc out n X :
  emitted_parents es (out ++ [n]) X
  = emitted_parents es out X + (if decide ((X, n) ∈ es) then 1 else 0).
Proof.
  unfold emitted_parents. rewrite filter_app, length_app, filter_singleton by exact [].
  f_equal. repeat case_decide; try reflexivity; exfalso;
    rewrite elem_of_preds in *; contradiction.
Qed.

(** A counter at zero means every recorded parent is emitted. *)
Lemma zero_parents_emitted out X p :
  NoDup out →
  emitted_parents es out X = length (preds es X) →
  (X, p) ∈ es → p ∈ out.
Proof.
  intros Hnd Hcnt Hp. destruct (decide (p ∈ out)) as [|Hout]; [assumption|].
  exfalso.
  assert (NoDup (out ++ [p])) as Hnd'.
  { apply NoDup_app. split_and!; [assumption| |apply NoDup_singleton].
    now intros x Hx ->%list_elem_of_singleton. }
  pose proof (emitted_parents_le (out ++ [p]) X Hnd') as Hle.
  rewrite emitted_parents_snoc, decide_True in Hle by assumption. lia.
Qed.

Lemma relax_fold l indeg q :
  NoDup l →
  ∃ indeg',
    foldl relax (indeg, q) l
    = (indeg', q ++ filter (fun c => (indeg_of indeg c - 1 = 0)%Z) l)
    ∧ ∀ X, indeg_of indeg' X
           = (indeg_of indeg X - (if decide (X ∈ l) then 1 else 0))%Z.
Proof.
  revert indeg q. induction l as [|c l IH]; intros indeg q Hnd.
  - exists indeg. split; [simpl; now rewrite app_nil_r|].
    intros X. case_decide as HX; [now apply elem_of_nil in HX | lia].
  - apply NoDup_cons in Hnd as [Hc Hnd].
    cbn [foldl relax]. set (indeg1 := <[c := (indeg_of indeg c - 1)%Z]> indeg).
    assert (∀ X, indeg_of indeg1 X
                 = if decide (c = X) then (indeg_of indeg c - 1)%Z else indeg_of indeg X)
      as Hindeg1 by (intros X; apply indeg_of_insert).
    destruct (IH indeg1 (if decide (indeg_of indeg1 c = 0%Z) then q ++ [c] else q) Hnd)
      as (indeg' & -> & Hindeg').
    exists indeg'. split.
    + f_equal. rewrite filter_cons.
      rewrite (filter_ext_elem (fun c0 => (indeg_of indeg1 c0 - 1 = 0)%Z)
                 (fun c0 => (indeg_of indeg c0 - 1 = 0)%Z)).
      2:{ intros x Hx. rewrite Hindeg1, decide_False by (intros ->; contradiction).
          reflexivity. }
      rewrite (Hindeg1 c). destruct (decide (c = c)) as [_|]; [|congruence].
      case_decide; [now rewrite <- app_assoc | reflexivity].
    + intros X. rewrite Hindeg', Hindeg1.
      repeat case_decide; subst; try lia; exfalso; set_unfold; intuition congruence.
Qed.

Lemma precedes_app out k a b : precedes out a b → precedes (out ++ k) a b.
Proof.
  intros (i & j & Hi & Hj & Hij). exists i, j.
  split_and!; [| |assumption]; apply lookup_app_l_Some; assumption.
Qed.

Lemma precedes_snoc out a b : a ∈ out → precedes (out ++ [b]) a b.
Proof.
  intros (i & Hi)%list_elem_of_lookup. exists i, (length out).
  split_and!.
  - now apply lookup_app_l_Some.
  - now apply list_lookup_middle.
  - now apply lookup_lt_Some in Hi.
Qed.

(** One turn of the loop keeps the invariant. *)
Lemma kahn_step indeg n q out :
  kahn_inv universe es indeg (n :: q) out →
  ∃ indeg' q',
    foldl relax (indeg, q) (children_of children n) = (indeg', q')
    ∧ kahn_inv universe es indeg' q' (out ++ [n]).
Proof.
  intros [Hnd Hcount Huni Hready Hzero Horder].
  destruct (relax_fold (children_of children n) indeg q (children_NoDup n))
    as (indeg' & Hfold & Hindeg').
  eexists _, _. split; [exact Hfold|].
  assert (NoDup ((out ++ [n]) ++ q)) as Hnd1 by now rewrite <- app_assoc.
  assert (NoDup (out ++ [n])) as Hnd2 by now apply NoDup_app in Hnd1 as [? _].
  assert (NoDup out) as Hnd3 by now apply NoDup_app in Hnd as [? _].
  (* a child of [n] still waits for [n]: its counter is positive *)
  assert (∀ c, c ∈ children_of children n → (1 ≤ indeg_of indeg c)%Z) as Hpos.
  { intros c Hc%children_edges.
    pose proof (emitted_parents_le (out ++ [n]) c Hnd2) as Hle.
    rewrite emitted_parents_snoc, decide_True in Hle by assumption.
    rewrite Hcount. lia. }
  assert (∀ c, c ∈ children_of children n → c ∉ out ++ n :: q) as Hfresh.
  { intros c Hc Hin. specialize (Hpos c Hc). specialize (Hzero c Hin). lia. }
  assert (∀ X, X ∈ (out ++ [n]) ++ q ↔ X ∈ out ++ n :: q) as Hsame.
  { intros X. now rewrite <- app_assoc. }
  split.
  - rewrite app_assoc. apply NoDup_app. split_and!; [assumption| |].
    + intros X HX [_ HXc]%list_elem_of_filter.
      apply (Hfresh X HXc). now apply Hsame.
    + apply NoDup_filter, children_NoDup.
  - intros X. rewrite Hindeg', Hcount, emitted_parents_snoc.
    repeat case_decide; try lia; exfalso;
      rewrite children_edges in *; contradiction.
  - intros X. rewrite app_assoc, elem_of_app.
    intros [HX%Hsame | [_ HX%children_edges]%list_elem_of_filter]; eauto.
  - intros X HX. rewrite Hindeg'. rewrite app_assoc, elem_of_app, Hsame.
    case_decide as Hc.
    + intros Hz. right. apply list_elem_of_filter. split; [lia | assumption].
    + intros Hz. left. apply Hready; [assumption | lia].
  - intros X. rewrite app_assoc, elem_of_app, Hsame, Hindeg'.
    intros [HX | [Hz HX]%list_elem_of_filter].
    + rewrite decide_False by (intros Hc; exact (Hfresh X Hc HX)).
      rewrite (Hzero X HX). lia.
    + rewrite decide_True by assumption. lia.
  - intros X p. rewrite elem_of_app, list_elem_of_singleton.
    intros [HX | ->] Hp.
    + now apply precedes_app, Horder.
    + apply precedes_snoc.
      apply (zero_parents_emitted out n p Hnd3); [|assumption].
      assert (n ∈ out ++ n :: q) as Hn by (apply elem_of_app; right; left).
      pose proof (Hzero n Hn) as Hz. rewrite Hcount in Hz.
      pose proof (emitted_parents_le out n Hnd3). lia.
Qed.

Lemma kahn_inv_length indeg q out :
  kahn_inv universe es indeg q out → length out + length q ≤ length universe.
Proof.
  intros [Hnd _ Huni _ _ _]. rewrite <- length_app.
  apply submseteq_length, NoDup_submseteq; assumption.
Qed.

(** The loop ends within the fuel of one unit per name still to emit. *)
Lemma drain_terminates fuel indeg q out :
  kahn_inv universe es indeg q out →
  length universe < fuel + length out →
  ∃ indeg' out',
    drain fuel children indeg q out = Some out'
    ∧ kahn_inv universe es indeg' [] out'.
Proof.
  revert indeg q out. induction fuel as [|fuel IH]; intros indeg q out Hinv Hfuel.
  - apply kahn_inv_length in Hinv. simpl in Hfuel. lia.
  - destruct q as [|n q]; simpl.
    + eauto.
    + destruct (kahn_step indeg n q out Hinv) as (indeg1 & q1 & -> & Hinv1).
      apply (IH _ _ _ Hinv1). rewrite length_app. simpl. lia.
Qed.

(** What the loop leaves behind still waits for a parent it left behind. *)
Lemma kahn_left_behind indeg out X :
  kahn_inv universe es indeg [] out →
  NoDup (preds es X) →
  X ∈ universe → X ∉ out →
  ∃ p, (X, p) ∈ es ∧ p ∉ out.
Proof.
  intros [Hnd Hcount _ Hready _ _] Hpreds HX Hout.
  rewrite app_nil_r in *.
  destruct (decide (Forall (fun p => p ∈ out) (preds es X))) as [Hall|Hex].
  - exfalso. apply Hout. apply Hready; [assumption|].
    rewrite Hcount. pose proof (emitted_parents_le out X Hnd).
    assert (length (preds es X) ≤ emitted_parents es out X); [|lia].
    unfold emitted_parents. apply submseteq_length, NoDup_submseteq; [assumption|].
    intros p Hp. apply list_elem_of_filter. split; [assumption|].
    now apply (proj1 (Forall_forall _ _) Hall).
  - apply not_Forall_Exists in Hex; [|apply _].
    apply Exists_exists in Hex as (p & Hp%elem_of_preds & Hnot). eauto.
Qed.

End Kahn.

(** ** Fuel *)

(** More fuel never changes what the queue loop returns. *)
Lemma drain_fuel_mono fuel fuel' children indeg q out res :
  drain fuel children indeg q out = Some res → fuel ≤ fuel' →
  drain fuel' children indeg q out = Some res.
Proof.
  revert fuel' indeg q out.
  induction fuel as [|fuel IH]; intros fuel' indeg q out Hres Hle; [discriminate|].
  destruct fuel' as [|fuel']; [lia|]. cbn [drain] in *.
  destruct q as [|n q]; [assumption|].
  destruct (foldl relax (indeg, q) (children_of children n)) as [indeg1 q1].
  apply IH; [assumption | lia].
Qed.

Lemma topoSortClasses_fuel_mono fuel fuel' classes out :
  topoSortClasses_fuel fuel classes = Some out → fuel ≤ fuel' →
  topoSortClasses_fuel fuel' classes = Some out.
Proof.
  unfold topoSortClasses_fuel. intros Hres Hle.
  destruct (build_edges classes _) as [[indeg children]|]; [|discriminate].
  cbn [mbind option_bind] in *.
  destruct (drain fuel _ _ _ _) as [res|] eqn:E; [|discriminate].
  now rewrite (drain_fuel_mono _ _ _ _ _ _ _ E Hle).
Qed.

(** More fuel never changes what [walk] returns. *)
Lemma walk_fuel_mono fuel fuel' classes name st st' :
  walk fuel classes name st = Some st' → fuel ≤ fuel' →
  walk fuel' classes name st = Some st'.
Proof.
  revert fuel' name st st'.
  induction fuel as [|fuel IH]; intros fuel' name [seen out] st' Hres Hle; [discriminate|].
  destruct fuel' as [|fuel']; [lia|]. cbn [walk] in *.
  destruct (JsSet.has name seen); [assumption|].
  destruct (JsMap.get name classes) as [cls|]; [|assumption].
  revert Hres. generalize (Some (JsSet.add name seen,
    foldl (fun out p => JsSet.add p out) out (ClassDef.properties cls))).
  induction (ClassDef.parents cls) as [|p ps IHps]; intros acc Hres; [assumption|].
  cbn [foldl] in *. apply IHps.
  destruct acc as [st|]; cbn [mbind option_bind] in *.
  - destruct (walk fuel classes p st) as [st1|] eqn:E.
    + rewrite (IH fuel' p st st1 E) by lia. assumption.
    + exfalso. clear -Hres. induction ps as [|p' ps IHps']; [discriminate|].
      now apply IHps'.
  - assumption.
Qed.

(** ** The topological linearizer: the whole function *)

Lemma append_missing_filter names out :
  NoDup names →
  append_missing names out = out ++ filter (fun n => n ∉ out) names.
Proof.
  unfold append_missing. revert out.
  induction names as [|n names IH]; intros out Hnd; simpl.
  - now rewrite app_nil_r.
  - apply NoDup_cons in Hnd as [Hn Hnd]. rewrite filter_cons.
    case_bool_decide as Hin.
    + rewrite decide_False by tauto. now apply IH.
    + rewrite decide_True by assumption. rewrite IH by assumption.
      rewrite <- app_assoc. simpl. do 2 f_equal.
      apply filter_ext_elem. intros x Hx.
      rewrite elem_of_app, list_elem_of_singleton.
      split; [tauto|]. intros Hx' [?| ->]; contradiction.
Qed.

Lemma precedes_app_lr l1 l2 a b : a ∈ l1 → b ∈ l2 → precedes (l1 ++ l2) a b.
Proof.
  intros (i & Hi)%list_elem_of_lookup (j & Hj)%list_elem_of_lookup.
  exists i, (length l1 + j). split_and!.
  - now apply lookup_app_l_Some.
  - rewrite lookup_app_r by lia. now replace (length l1 + j - length l1) with j by lia.
  - apply lookup_lt_Some in Hi. lia.
Qed.

Section Linearizer.

Context (classes : Classes) (Hwf : wf_classes classes).

Lemma names_elem_of n : n ∈ (sort (JsMap.keys classes)) ↔ n ∈ (JsMap.keys classes).
Proof. apply sort_elem_of. Qed.

Lemma names_NoDup : NoDup (sort (JsMap.keys classes)).
Proof. apply sort_NoDup, Hwf. Qed.

Lemma values_names : ClassDef.name <$> JsMap.values classes = (JsMap.keys classes).
Proof.
  destruct Hwf as [_ Hname]. unfold JsMap.values, JsMap.keys.
  clear -Hname. induction classes as [|[k c] l IH]; [reflexivity|]. simpl.
  rewrite (Hname k c) by left. f_equal. apply IH.
  intros k' c' Hin. apply Hname. now right.
Qed.

Lemma get_values X c :
  JsMap.get X classes = Some c ↔ c ∈ JsMap.values classes ∧ ClassDef.name c = X.
Proof.
  destruct Hwf as [Hnd Hname]. split.
  - intros Hin%JsMap_get_Some. split; [|now apply Hname].
    apply list_elem_of_fmap. now exists (X, c).
  - intros [([k c'] & -> & Hin)%list_elem_of_fmap <-]. simpl.
    rewrite (Hname k c' Hin). now apply JsMap_elem_of_get.
Qed.

Lemma elem_of_edges_of cs X p :
  (X, p) ∈ edges_of classes cs
  ↔ ∃ c, c ∈ cs ∧ ClassDef.name c = X ∧ p ∈ ClassDef.parents c ∧ p ∈ (JsMap.keys classes).
Proof.
  unfold edges_of, resolved_parents. rewrite list_elem_of_bind. split.
  - intros (c & (p' & [= -> ->] & [Hk Hp]%list_elem_of_filter)%list_elem_of_fmap & Hc).
    eauto.
  - intros (c & Hc & <- & Hp & Hk). exists c. split; [|assumption].
    apply list_elem_of_fmap. exists p. split; [reflexivity|].
    now apply list_elem_of_filter.
Qed.

Lemma edges_parent_of X p : (X, p) ∈ (edges_of classes (JsMap.values classes)) ↔ parent_of classes X p.
Proof.
  unfold parent_of. rewrite elem_of_edges_of. split.
  - intros (c & Hc & HX & Hp & Hk). exists c. now rewrite get_values.
  - intros (c & [Hc HX]%get_values & Hp & Hk). eauto.
Qed.

Lemma edges_child_key X p : (X, p) ∈ (edges_of classes (JsMap.values classes)) → X ∈ (JsMap.keys classes).
Proof.
  intros (c & Hc & _)%edges_parent_of.
  destruct (decide (X ∈ (JsMap.keys classes))) as [|Hn]; [assumption|].
  apply JsMap_get_None in Hn. congruence.
Qed.

(** The run of [topoSortClasses]: no lookup fails, the loop ends within its
    fuel, and what it emits is completed with the (sort (JsMap.keys classes)) left behind. *)
Lemma topoSortClasses_run :
  ∃ indeg out,
    topoSortClasses classes = Some (out ++ filter (fun n => n ∉ out) (sort (JsMap.keys classes)))
    ∧ kahn_inv (JsMap.keys classes) (edges_of classes (JsMap.values classes)) indeg [] out.
Proof.
  unfold topoSortClasses, topoSortClasses_fuel.
  destruct (build_edges_record classes (sort (JsMap.keys classes))) as ([indeg children] & -> & Hrec).
  { intros n. apply names_elem_of. }
  destruct Hrec as (Hindeg & Hdom & Hch).
  cbn [fst snd] in *. cbn [mbind option_bind].
  assert (∀ p, NoDup (children_of children p)) as Hch_nd.
  { intros p. unfold children_of. destruct (children !! p) as [l|] eqn:E; simpl.
    - now apply (Hch p l).
    - constructor. }
  assert (∀ X p, X ∈ children_of children p ↔ (X, p) ∈ (edges_of classes (JsMap.values classes))) as Hch_es.
  { intros X p. unfold children_of. destruct (children !! p) as [l|] eqn:E; simpl.
    - now apply (Hch p l).
    - split; [now intros ?%elem_of_nil|].
      intros (c & _ & _ & Hk)%edges_parent_of.
      destruct (Hdom p Hk) as [l Hl]. congruence. }
  set (q := filter (fun n => indeg_of indeg n = 0%Z) (sort (JsMap.keys classes))).
  assert (kahn_inv (JsMap.keys classes) (edges_of classes (JsMap.values classes)) indeg q []) as Hinit.
  { split; simpl.
    - apply NoDup_filter, names_NoDup.
    - intros X. rewrite Hindeg. unfold emitted_parents. simpl. lia.
    - intros X [_ HX%names_elem_of]%list_elem_of_filter. exact HX.
    - intros X HX Hz. apply list_elem_of_filter. split; [assumption|].
      now apply names_elem_of.
    - now intros X [Hz _]%list_elem_of_filter.
    - now intros X p ?%elem_of_nil. }
  destruct (drain_terminates (JsMap.keys classes) children (edges_of classes (JsMap.values classes)) Hch_nd Hch_es edges_child_key
              (S (length classes)) indeg q [] Hinit) as (indeg' & out & Hdrain & Hinv).
  { unfold JsMap.keys. rewrite length_fmap. simpl. lia. }
  fold q. rewrite Hdrain. cbn [mbind option_bind].
  exists indeg', out. split; [|assumption].
  now rewrite append_missing_filter by apply names_NoDup.
Qed.

Lemma topoSortClasses_spec :
  ∃ out, topoSortClasses classes = Some out
         ∧ NoDup out ∧ ∀ n, n ∈ out ↔ n ∈ (JsMap.keys classes).
Proof.
  destruct topoSortClasses_run as (indeg & out & -> & [Hnd _ Huni _ _ _]).
  rewrite app_nil_r in *. eexists. split; [reflexivity|]. split.
  - apply NoDup_app. split_and!; [assumption| |apply NoDup_filter, names_NoDup].
    now intros x Hx [Hn _]%list_elem_of_filter.
  - intros n. rewrite elem_of_app, list_elem_of_filter, names_elem_of.
    split; [intros [?|[_ ?]]; auto|].
    intros Hn. destruct (decide (n ∈ out)); auto.
Qed.

End Linearizer.

(** C1: on every class mapping (one entry per class name, whatever its
    parent edges: cyclic, dangling, repeated), the linearizer ends and
    returns a list that holds every class name of the mapping exactly once
    and nothing else.  This covers every mapping the extractor builds. *)
Theorem topoSortClasses_total :
  (∀ classes : Classes,
     wf_classes classes →
     ∃ out, topoSortClasses classes = Some out
            ∧ NoDup out
            ∧ (∀ n, n ∈ out ↔ n ∈ JsMap.keys classes)
            ∧ length out = length classes)
  ∧ (∀ (Store : Type)
       (getQuads : Store → option str → option str → option str → option str → list Quad)
       (store : Store),
       ∃ out, topoSortClasses (buildGraph getQuads store).1 = Some out
              ∧ NoDup out
              ∧ (∀ n, n ∈ out ↔ n ∈ JsMap.keys (buildGraph getQuads store).1)
              ∧ length out = length (buildGraph getQuads store).1).
Proof.
  assert (∀ classes : Classes,
            wf_classes classes →
            ∃ out, topoSortClasses classes = Some out
                   ∧ NoDup out
                   ∧ (∀ n, n ∈ out ↔ n ∈ JsMap.keys classes)
                   ∧ length out = length classes) as Hgeneral.
  { intros classes Hwf.
    destruct (topoSortClasses_spec classes Hwf) as (out & Hrun & Hnd & Hmem).
    exists out. split_and!; try assumption.
    assert (out ≡ₚ JsMap.keys classes) as ->.
    { apply NoDup_Permutation; [assumption | apply Hwf | assumption]. }
    unfold JsMap.keys. apply length_fmap. }
  split; [exact Hgeneral|].
  intros Store getQuads store. apply Hgeneral, buildGraph_wf.
Qed.

Lemma two_cycle_wf : wf_classes two_cycle.
Proof.
  split.
  - apply (bool_decide_unpack _). vm_compute. exact I.
  - intros k c Hin. cbv [two_cycle class] in Hin.
    fixture_entries Hin; reflexivity.
Qed.

(** The 2-cycle A → B → A: the linearizer ends with both names, once each. *)
Lemma topoSortClasses_total_witness :
  ∃ out, topoSortClasses two_cycle = Some out
         ∧ NoDup out
         ∧ (∀ n, n ∈ out ↔ n ∈ [js "A"; js "B"])
         ∧ length out = 2.
Proof. exact (proj1 topoSortClasses_total two_cycle two_cycle_wf). Defined.

Lemma topoSortClasses_two_cycle : topoSortClasses two_cycle = Some [js "A"; js "B"].
Proof. vm_compute. reflexivity. Qed.

(** ** The topological linearizer: parents first *)

Lemma preds_app es1 es2 X : preds (es1 ++ es2) X = preds es1 X ++ preds es2 X.
Proof. unfold preds. now rewrite filter_app, fmap_app. Qed.

Lemma preds_fmap_pair (Y X : str) (l : list str) :
  preds ((fun p => (Y, p)) <$> l) X = if decide (Y = X) then l else [].
Proof.
  unfold preds. induction l as [|p l IH]; [now case_decide|].
  rewrite fmap_cons, filter_cons. cbn [fst].
  destruct (decide (Y = X)) as [HY|HY].
  - rewrite fmap_cons. cbn [snd]. f_equal.
    exact IH.
  - exact IH.
Qed.

Section Ordering.

Context (classes : Classes) (Hwf : wf_classes classes).
Hypothesis parents_NoDup : ∀ k c, (k, c) ∈ classes → NoDup (ClassDef.parents c).

Lemma preds_edges_of_NoDup cs X :
  NoDup (ClassDef.name <$> cs) →
  (∀ c, c ∈ cs → NoDup (ClassDef.parents c)) →
  NoDup (preds (edges_of classes cs) X).
Proof.
  induction cs as [|c cs IH]; intros Hnames Hparents.
  - constructor.
  - rewrite fmap_cons in Hnames. apply NoDup_cons in Hnames as [Hc Hnames].
    unfold edges_of. rewrite bind_cons, preds_app, preds_fmap_pair.
    fold (edges_of classes cs).
    case_decide as HX.
    + assert (preds (edges_of classes cs) X = []) as ->.
      { destruct (preds (edges_of classes cs) X) as [|p l] eqn:E; [reflexivity|].
        exfalso. apply Hc. subst X.
        assert (p ∈ preds (edges_of classes cs) (ClassDef.name c)) as Hp
          by (rewrite E; left).
        apply elem_of_preds, elem_of_edges_of in Hp as (c' & Hc' & Hname & _).
        rewrite <- Hname. now apply list_elem_of_fmap_2. }
      rewrite app_nil_r. apply NoDup_filter, Hparents. left.
    + apply IH; [assumption|]. intros c' Hc'. apply Hparents. now right.
Qed.

Lemma preds_NoDup X : NoDup (preds (edges_of classes (JsMap.values classes)) X).
Proof.
  apply preds_edges_of_NoDup.
  - rewrite (values_names classes Hwf). apply Hwf.
  - intros c ([k c'] & -> & Hin)%list_elem_of_fmap. now apply (parents_NoDup k).
Qed.

(** A class that the loop leaves behind has a cycle among its ancestors:
    follow parents that were left behind until a class comes back. *)
Lemma left_behind_cyclic indeg out :
  kahn_inv (JsMap.keys classes) (edges_of classes (JsMap.values classes)) indeg [] out →
  ∀ m (visited : list str) X,
    length (filter (fun k => k ∉ visited) (JsMap.keys classes)) ≤ m →
    X ∈ (JsMap.keys classes) → X ∉ out →
    (∀ v, v ∈ visited → tc (parent_of classes) v X) →
    ∃ x, rtc (parent_of classes) X x ∧ tc (parent_of classes) x x.
Proof.
  intros Hinv m. induction m as [|m IH]; intros visited X Hm HX Hout Hvis.
  - destruct (decide (X ∈ visited)) as [Hv|Hv].
    + exists X. split; [reflexivity | now apply Hvis].
    + exfalso.
      assert (X ∈ filter (fun k => k ∉ visited) (JsMap.keys classes)) as Hin
        by now apply list_elem_of_filter.
      destruct (filter (fun k => k ∉ visited) (JsMap.keys classes)); [|simpl in Hm; lia].
      now apply elem_of_nil in Hin.
  - destruct (decide (X ∈ visited)) as [Hv|Hv].
    + exists X. split; [reflexivity | now apply Hvis].
    + destruct (kahn_left_behind (JsMap.keys classes) (edges_of classes (JsMap.values classes)) indeg out X Hinv (preds_NoDup X) HX Hout)
        as (p & Hp%(edges_parent_of classes Hwf) & Hpout).
      assert (p ∈ (JsMap.keys classes)) as Hpk by (destruct Hp as (c & _ & _ & ?); assumption).
      destruct (IH (X :: visited) p) as (x & Hreach & Hcycle); try assumption.
      * assert (length (filter (fun k => k ∉ X :: visited) (JsMap.keys classes))
                < length (filter (fun k => k ∉ visited) (JsMap.keys classes))); [|lia].
        rewrite <- (list_filter_filter_l (fun k => k ∉ X :: visited)
                      (fun k => k ∉ visited)).
        2:{ intros k Hk Hk'. apply Hk. now right. }
        apply (length_filter_lt _ _ X).
        -- now apply list_elem_of_filter.
        -- intros Hn. apply Hn. left.
      * intros v [->|Hv']%elem_of_cons.
        -- now apply tc_once.
        -- eapply tc_r; [apply Hvis|]; eassumption.
      * exists x. split; [|assumption]. eapply rtc_l; eassumption.
Qed.

Lemma acyclic_ancestry_emitted indeg out X :
  kahn_inv (JsMap.keys classes) (edges_of classes (JsMap.values classes)) indeg [] out →
  X ∈ (JsMap.keys classes) → ¬ cyclic_ancestry classes X → X ∈ out.
Proof.
  intros Hinv HX Hacyc. destruct (decide (X ∈ out)) as [|Hout]; [assumption|].
  exfalso. apply Hacyc.
  apply (left_behind_cyclic indeg out Hinv (length (JsMap.keys classes)) [] X); try assumption.
  - apply length_filter.
  - now intros v ?%elem_of_nil.
Qed.

Lemma parent_emitted_first C P :
  parent_of classes C P → ¬ cyclic_ancestry classes P →
  ∃ out, topoSortClasses classes = Some out ∧ precedes out P C.
Proof.
  intros Hedge Hacyc.
  destruct (topoSortClasses_run classes Hwf) as (indeg & out & -> & Hinv).
  eexists. split; [reflexivity|].
  assert (P ∈ (JsMap.keys classes)) as HP by (destruct Hedge as (c & _ & _ & ?); assumption).
  assert (C ∈ (JsMap.keys classes)) as HC.
  { apply (edges_child_key classes Hwf C P), edges_parent_of; assumption. }
  pose proof (acyclic_ancestry_emitted indeg out P Hinv HP Hacyc) as HPout.
  destruct (decide (C ∈ out)) as [HCout|HCout].
  - apply precedes_app, (inv_order _ _ _ _ _ Hinv); [assumption|].
    now apply edges_parent_of.
  - apply precedes_app_lr; [assumption|].
    apply list_elem_of_filter. split; [assumption|]. now apply names_elem_of.
Qed.

End Ordering.

(** C2, as the code has it: when no class lists a parent twice, every
    resolvable parent [P] of a class [C] stands before [C] in the linear
    order, unless [P] lies on a cycle of parent edges or has an ancestor
    that does (the classes that never reach in-degree zero are appended in
    lexicographic order). *)
Theorem topoSortClasses_parents_first (classes : Classes) (C P : str) :
  wf_classes classes →
  (∀ k c, (k, c) ∈ classes → NoDup (ClassDef.parents c)) →
  parent_of classes C P →
  ¬ cyclic_ancestry classes P →
  ∃ out, topoSortClasses classes = Some out ∧ precedes out P C.
Proof. intros Hwf Hnd. now apply parent_emitted_first. Qed.

Lemma thing_person_wf : wf_classes thing_person.
Proof.
  split.
  - apply (bool_decide_unpack _). vm_compute. exact I.
  - intros k c Hin. cbv [thing_person class] in Hin.
    fixture_entries Hin; reflexivity.
Qed.

Lemma thing_person_parents k c : (k, c) ∈ thing_person → NoDup (ClassDef.parents c).
Proof.
  intros Hin. cbv [thing_person class] in Hin.
  fixture_entries Hin; apply (bool_decide_unpack _); vm_compute; exact I.
Qed.

Lemma thing_person_edge : parent_of thing_person (js "Person") (js "Thing").
Proof.
  eexists. split_and!; [reflexivity | |]; apply (bool_decide_unpack _); vm_compute; exact I.
Qed.

Lemma thing_has_no_parent P : ¬ parent_of thing_person (js "Thing") P.
Proof.
  intros (c & Hc & HP & _). vm_compute in Hc. injection Hc as <-.
  simpl in HP. now apply elem_of_nil in HP.
Qed.

Lemma thing_acyclic : ¬ cyclic_ancestry thing_person (js "Thing").
Proof.
  intros (x & Hreach & Hcycle).
  apply rtc_inv in Hreach as [<-|(y & Hy & _)]; [|now apply thing_has_no_parent in Hy].
  inversion Hcycle as [? ? Hy|? ? ? Hy _]; now apply thing_has_no_parent in Hy.
Qed.

(** [Thing] stands before [Person]. *)
Lemma topoSortClasses_parents_first_witness :
  ∃ out, topoSortClasses thing_person = Some out
         ∧ precedes out (js "Thing") (js "Person").
Proof.
  exact (topoSortClasses_parents_first thing_person (js "Person") (js "Thing")
           thing_person_wf thing_person_parents thing_person_edge thing_acyclic).
Defined.

Lemma below_a_cycle_targets x y :
  tc (parent_of below_a_cycle) x y → y ∈ [js "B"; js "C"].
Proof.
  assert (∀ x y, parent_of below_a_cycle x y → y ∈ [js "B"; js "C"]) as Hedge.
  { clear. intros x y (c & Hc%JsMap_get_Some & Hy & _).
    cbv [below_a_cycle class] in Hc. fixture_entries Hc; simpl in Hy;
      apply elem_of_cons in Hy as [->|Hy]; try (now apply elem_of_nil in Hy);
      apply (bool_decide_unpack _); vm_compute; exact I. }
  induction 1; eauto.
Qed.

(** C2, as stated, fails below a cycle: [B] is a resolvable parent of [A],
    [A] lies on no cycle at all, and still [A] is emitted before [B]. *)
Lemma topoSortClasses_parent_after_child :
  wf_classes below_a_cycle
  ∧ parent_of below_a_cycle (js "A") (js "B")
  ∧ ¬ tc (parent_of below_a_cycle) (js "A") (js "A")
  ∧ topoSortClasses below_a_cycle = Some [js "A"; js "B"; js "C"]
  ∧ ¬ precedes [js "A"; js "B"; js "C"] (js "B") (js "A").
Proof.
  split_and!.
  - split.
    + apply (bool_decide_unpack _). vm_compute. exact I.
    + intros k c Hin. cbv [below_a_cycle class] in Hin.
      fixture_entries Hin; reflexivity.
  - eexists. split_and!; [reflexivity | |];
      apply (bool_decide_unpack _); vm_compute; exact I.
  - intros H%below_a_cycle_targets. revert H.
    apply (bool_decide_unpack _). vm_compute. exact I.
  - vm_compute. reflexivity.
  - intros (i & j & Hi & Hj & Hij).
    destruct i as [|[|[|i]]]; vm_compute in Hi; try discriminate;
      destruct j as [|[|[|j]]]; vm_compute in Hj; try discriminate; lia.
Qed.

(** A parent listed twice counts twice in the in-degree but once in the
    children set, so the class never reaches zero: here [B] is appended
    after its child [A] although the graph has no cycle. *)
Lemma topoSortClasses_repeated_parent :
  topoSortClasses repeated_parent = Some [js "C"; js "A"; js "B"].
Proof. vm_compute. reflexivity. Qed.

(** ** Inherited properties *)

Section Collect.

Context (classes : Classes).

Implicit Types (seen out : list str) (st : list str * list str).

Lemma unseen_mono seen seen' :
  (∀ x, x ∈ seen → x ∈ seen') →
  length (unseen classes seen') ≤ length (unseen classes seen).
Proof.
  intros Hsub. unfold unseen.
  rewrite <- (list_filter_filter_l (fun k => k ∉ seen') (fun k => k ∉ seen)).
  - apply length_filter.
  - intros k Hk Hk'. auto.
Qed.

Lemma unseen_add seen name :
  name ∈ JsMap.keys classes → name ∉ seen →
  length (unseen classes (JsSet.add name seen)) < length (unseen classes seen).
Proof.
  intros Hk Hs. unfold unseen.
  rewrite <- (list_filter_filter_l (fun k => k ∉ JsSet.add name seen) (fun k => k ∉ seen)).
  - apply (length_filter_lt _ _ name).
    + now apply list_elem_of_filter.
    + intros Hn. apply Hn, JsSet_add_elem_of. now left.
  - intros k Hk' Hk''. apply Hk', JsSet_add_elem_of. now right.
Qed.

Lemma walk_post_refl st : walk_post classes [] st st.
Proof.
  split_and!; try tauto.
  - now intros x ?%elem_of_nil.
  - intros p. split; [tauto|]. intros [?|(x & cls & ? & ? & _)]; [assumption|contradiction].
Qed.

Lemma walk_post_app s1 s2 st st1 st2 :
  walk_post classes s1 st st1 → walk_post classes s2 st1 st2 →
  walk_post classes (s1 ++ s2) st st2.
Proof.
  intros (Hm1 & Hs1 & Hr1 & Hc1 & Ho1 & Hn1) (Hm2 & Hs2 & Hr2 & Hc2 & Ho2 & Hn2).
  split_and!.
  - auto.
  - intros x [?|?]%elem_of_app; auto.
  - intros x [Hx|(s & Hs & Hsx)]%Hr2.
    + destruct (Hr1 x Hx) as [?|(s & Hs & Hsx)]; [now left|].
      right. exists s. split; [apply elem_of_app; now left | assumption].
    + right. exists s. split; [apply elem_of_app; now right | assumption].
  - intros x y Hx Hnew Hedge.
    destruct (decide (x ∈ st1.1)) as [Hx1|Hx1]; [apply Hm2|]; eauto.
  - intros p. rewrite Ho2, Ho1. split.
    + intros [[?|(x & cls & Hx & Hnew & Hget & Hp)]|(x & cls & Hx & Hnew & Hget & Hp)].
      * now left.
      * right. exists x, cls. split_and!; auto.
      * right. exists x, cls. split_and!; auto.
    + intros [?|(x & cls & Hx & Hnew & Hget & Hp)]; [now do 2 left|].
      destruct (decide (x ∈ st1.1)) as [Hx1|Hx1].
      * left. right. exists x, cls. split_and!; auto.
      * right. exists x, cls. split_and!; auto.
  - auto.
Qed.

(** The loop over the parents, given that [walk] succeeds with this fuel. *)
Lemma walk_parents fuel :
  (∀ name st, length (unseen classes st.1) < fuel →
     ∃ st', walk fuel classes name st = Some st' ∧ walk_post classes [name] st st') →
  ∀ ps st, length (unseen classes st.1) < fuel →
    ∃ st', foldl (fun acc parent => acc ≫= walk fuel classes parent) (Some st) ps
           = Some st'
           ∧ walk_post classes ps st st'.
Proof.
  intros Hwalk ps. induction ps as [|p ps IH]; intros st Hfuel.
  - exists st. split; [reflexivity | apply walk_post_refl].
  - destruct (Hwalk p st Hfuel) as (st1 & Hst1 & Hpost1).
    destruct (IH st1) as (st' & Hst' & Hpost').
    { destruct Hpost1 as (Hm & _). pose proof (unseen_mono _ _ Hm). lia. }
    exists st'. split.
    + cbn [foldl mbind option_bind]. now rewrite Hst1.
    + apply (walk_post_app [p] ps st st1 st'); assumption.
Qed.

Lemma walk_ok fuel name st :
  length (unseen classes st.1) < fuel →
  ∃ st', walk fuel classes name st = Some st' ∧ walk_post classes [name] st st'.
Proof.
  revert name st. induction fuel as [|fuel IH]; intros name [seen out] Hfuel; [lia|].
  cbn [fst] in Hfuel. cbn [walk]. unfold JsSet.has. case_bool_decide as Hseen.
  - exists (seen, out). split; [reflexivity|]. split_and!; cbn [fst snd]; try tauto.
    + now intros x ->%list_elem_of_singleton.
    + intros p. split; [tauto|].
      intros [?|(x & cls & ? & ? & _)]; [assumption|contradiction].
  - destruct (JsMap.get name classes) as [cls|] eqn:Hget.
    + set (out1 := foldl (fun out p => JsSet.add p out) out (ClassDef.properties cls)).
      destruct (walk_parents fuel IH (ClassDef.parents cls) (JsSet.add name seen, out1))
        as (st' & -> & Hm & Hs & Hr & Hc & Ho & Hn).
      { cbn [fst]. assert (name ∈ JsMap.keys classes) as Hk.
        { destruct (decide (name ∈ JsMap.keys classes)) as [|Hk]; [assumption|].
          apply JsMap_get_None in Hk. congruence. }
        pose proof (unseen_add seen name Hk Hseen). lia. }
      cbn [fst snd] in *. exists st'. split; [reflexivity|].
      split_and!; cbn [fst snd].
      * intros x Hx. apply Hm, JsSet_add_elem_of. now right.
      * intros x ->%list_elem_of_singleton. apply Hm, JsSet_add_elem_of. now left.
      * intros x [[->|Hx]%JsSet_add_elem_of|(s & Hs' & Hsx)]%Hr.
        -- right. exists name. split; [left | reflexivity].
        -- now left.
        -- right. exists name. split; [left|].
           eapply rtc_l; [|exact Hsx]. exists cls. split; assumption.
      * intros x y Hx Hnew Hedge.
        destruct (decide (x = name)) as [->|Hne].
        -- destruct Hedge as (c & Hc' & Hy). apply Hs. congruence.
        -- apply (Hc x y); try assumption.
           rewrite JsSet_add_elem_of. tauto.
      * intros p. rewrite Ho. unfold out1. rewrite JsSet_fold_add_elem_of. split.
        -- intros [[?|Hp]|(x & c & Hx & Hnew & Hc' & Hp)].
           ++ now left.
           ++ right. exists name, cls. split_and!; try assumption.
              apply Hm, JsSet_add_elem_of. now left.
           ++ right. exists x, c. split_and!; try assumption.
              intros ?. apply Hnew, JsSet_add_elem_of. now right.
        -- intros [?|(x & c & Hx & Hnew & Hc' & Hp)]; [now do 2 left|].
           destruct (decide (x = name)) as [->|Hne].
           ++ left. right. congruence.
           ++ right. exists x, c. split_and!; try assumption.
              rewrite JsSet_add_elem_of. tauto.
      * intros Hnd. apply Hn. unfold out1. now apply JsSet_fold_add_NoDup.
    + exists (JsSet.add name seen, out). split; [reflexivity|].
      split_and!; cbn [fst snd].
      * intros x Hx. apply JsSet_add_elem_of. now right.
      * intros x ->%list_elem_of_singleton. apply JsSet_add_elem_of. now left.
      * intros x [->|Hx]%JsSet_add_elem_of; [|now left].
        right. exists name. split; [left | reflexivity].
      * intros x y [->|Hx]%JsSet_add_elem_of Hnew (c & Hc' & _);
          [congruence | contradiction].
      * intros p. split; [tauto|].
        intros [?|(x & c & [->|Hx]%JsSet_add_elem_of & Hnew & Hc' & _)];
          [assumption | congruence | contradiction].
      * tauto.
Qed.

(** [collectAllPropsForClass] ends within its fuel and returns, without
    repetition, the properties of the class and of its ancestors. *)
Lemma collectAllPropsForClass_spec C :
  ∃ out, collectAllPropsForClass C classes = Some out
         ∧ NoDup out
         ∧ ∀ p, p ∈ out ↔ own_or_inherited classes C p.
Proof.
  unfold collectAllPropsForClass.
  destruct (walk_ok (S (length classes)) C ([], []))
    as ([seen out] & -> & Hm & Hs & Hr & Hc & Ho & Hn).
  { cbn [fst]. unfold unseen.
    pose proof (length_filter (fun k => k ∉ []) (JsMap.keys classes)) as Hle.
    unfold JsMap.keys in *. rewrite length_fmap in Hle. lia. }
  cbn [fst snd] in *. exists out. split; [reflexivity|]. split.
  - apply Hn. constructor.
  - assert (∀ A, rtc (listed_parent classes) C A → A ∈ seen) as Hreach.
    { apply (rtc_ind_r (fun A => A ∈ seen)).
      - apply Hs. left.
      - intros A B _ HAB HA.
        apply (Hc A B); [assumption | apply not_elem_of_nil | assumption]. }
    intros p. rewrite Ho. unfold own_or_inherited. split.
    + intros [?%elem_of_nil|(x & cls & Hx & _ & Hget & Hp)]; [contradiction|].
      exists x, cls. split_and!; try assumption.
      destruct (Hr x Hx) as [?%elem_of_nil|(s & ->%list_elem_of_singleton & Hsx)];
        [contradiction | assumption].
    + intros (A & cls & HA & Hget & Hp). right. exists A, cls.
      split_and!; auto using not_elem_of_nil.
Qed.

End Collect.

(** ** The emitter *)

Section Emitter.

Lemma identTable_get names n :
  JsMap.get n (identTable names)
  = if decide (n ∈ names) then Some (toTsIdent n) else None.
Proof.
  unfold identTable. induction names as [|x names IH] using rev_ind.
  - cbn [foldl JsMap.get]. case_decide as Hn; [now apply elem_of_nil in Hn | reflexivity].
  - rewrite foldl_snoc, JsMap_get_set, IH.
    repeat case_decide; subst; try reflexivity; exfalso;
      set_unfold; intuition congruence.
Qed.

Context (classes : Classes) (props : Props).

Lemma fields_names (tbl : list (str * str)) (allProps : list str) :
  (omap (fun propName =>
           prop ← JsMap.get propName props;
           Some (propName, propToTs prop tbl)) allProps).*1
  = filter (fun p => p ∈ JsMap.keys props) allProps.
Proof.
  induction allProps as [|p l IH]; [reflexivity|].
  rewrite filter_cons. cbn [omap list_omap].
  destruct (JsMap.get p props) as [prop|] eqn:E; cbn [mbind option_bind].
  - rewrite decide_True.
    + rewrite fmap_cons. cbn [fst]. f_equal. exact IH.
    + apply JsMap_has_keys. unfold JsMap.has. now rewrite E.
  - rewrite decide_False; [exact IH|]. now apply JsMap_get_None.
Qed.

Lemma interfaceOf_spec (tbl : list (str * str)) C cls :
  JsMap.get C classes = Some cls →
  ∃ i, interfaceOf classes props tbl C = Some i
       ∧ schemaName i = C
       ∧ ident i = default (js "undefined") (JsMap.get C tbl)
       ∧ NoDup (fields i).*1
       ∧ ∀ p, p ∈ (fields i).*1
              ↔ own_or_inherited classes C p ∧ p ∈ JsMap.keys props.
Proof.
  intros Hget. unfold interfaceOf. rewrite Hget. cbn [mbind option_bind].
  destruct (collectAllPropsForClass_spec classes C) as (out & -> & Hnd & Hmem).
  cbn [fmap option_fmap option_map mbind option_bind].
  eexists. split; [reflexivity|]. cbn [schemaName ident fields].
  rewrite fields_names. split_and!; try reflexivity.
  - now apply NoDup_filter, sort_NoDup.
  - intros p. rewrite list_elem_of_filter, sort_elem_of, Hmem. tauto.
Qed.

Lemma interfaceOf_names (tbl : list (str * str)) names decls :
  Forall2 (fun n i => interfaceOf classes props tbl n = Some i) names decls →
  schemaName <$> decls = names
  ∧ ident <$> decls = (fun n => default (js "undefined") (JsMap.get n tbl)) <$> names.
Proof.
  induction 1 as [|n i names decls Hi _ [IH1 IH2]]; [split; reflexivity|].
  rewrite !fmap_cons, IH1, IH2.
  unfold interfaceOf in Hi.
  destruct (JsMap.get n classes) as [cls|]; [|discriminate].
  cbn [mbind option_bind] in Hi.
  destruct (collectAllPropsForClass n classes) as [out|]; [|discriminate].
  injection Hi as <-. split; reflexivity.
Qed.

Context (Hwf : wf_classes classes).

(** The emitter declares one interface per class, in the linear order. *)
Lemma interfaces_spec :
  ∃ sorted decls,
    topoSortClasses classes = Some sorted
    ∧ interfaces classes props = Some decls
    ∧ Forall2 (fun n i => interfaceOf classes props (identTable sorted) n = Some i)
        sorted decls.
Proof.
  destruct (topoSortClasses_spec classes Hwf) as (sorted & Hrun & Hnd & Hmem).
  unfold interfaces. rewrite Hrun. cbn [mbind option_bind].
  destruct (mapM_is_Some_2 (interfaceOf classes props (identTable sorted)) sorted)
    as [decls Hdecls].
  { apply Forall_forall. intros n Hn%Hmem.
    destruct (JsMap.get n classes) as [cls|] eqn:E.
    - destruct (interfaceOf_spec (identTable sorted) n cls E) as (i & Hi & _).
      simpl. rewrite Hi. eauto.
    - apply JsMap_get_None in E. contradiction. }
  exists sorted, decls. split_and!; [reflexivity | assumption |].
  now apply mapM_Some_1.
Qed.

End Emitter.

Example buildGraph_thing_person :
  buildGraph ListStore.getQuads thing_person_store = (thing_person, thing_person_props).
Proof. vm_compute. reflexivity. Qed.

(** The fields of every emitted interface, on a well-formed graph. *)
Lemma interfaces_fields (classes : Classes) (props : Props) :
  wf_classes classes → props_closed classes props →
  ∃ decls,
    interfaces classes props = Some decls
    ∧ schemaName <$> decls ≡ₚ JsMap.keys classes
    ∧ ∀ i, i ∈ decls →
        NoDup (fields i).*1
        ∧ ∀ p, p ∈ (fields i).*1 ↔ own_or_inherited classes (schemaName i) p.
Proof.
  intros Hwf Hclosed.
  destruct (interfaces_spec classes props Hwf) as (sorted & decls & Hrun & Hdecls & Hall).
  destruct (topoSortClasses_spec classes Hwf) as (sorted' & Hrun' & Hnd & Hmem).
  assert (sorted' = sorted) as -> by congruence.
  exists decls. split_and!; [assumption| |].
  - rewrite (proj1 (interfaceOf_names classes props _ _ _ Hall)).
    apply NoDup_Permutation; [assumption | apply Hwf | assumption].
  - intros i (k & Hk)%list_elem_of_lookup.
    destruct (Forall2_lookup_r _ _ _ _ _ Hall Hk) as (n & Hn & Hi).
    assert (n ∈ JsMap.keys classes) as Hkey by (apply Hmem; eapply list_elem_of_lookup_2, Hn).
    destruct (JsMap.get n classes) as [cls|] eqn:E;
      [|apply JsMap_get_None in E; contradiction].
    destruct (interfaceOf_spec classes props (identTable sorted) n cls E)
      as (i' & Hi' & Hname & _ & Hnodup & Hfields).
    assert (i' = i) as -> by congruence. subst n.
    split; [assumption|]. intros p. rewrite Hfields. split; [tauto|].
    intros Hp. split; [assumption|].
    destruct Hp as (A & c & _ & HA & Hp). eapply Hclosed; eassumption.
Qed.

(** C5: the emitter declares one interface per class of the graph, and the
    property fields of the interface of a class [C] are, without
    repetition, exactly the properties declared by [C] or by an ancestor
    reachable from [C] through classes of the graph.  This holds of every
    graph in which each class is filed under its name and each attached
    property has a definition, hence of every graph the extractor builds.
    On the minimal fixture, [Thing] extends nothing and has no field, and
    [Person] extends [Thing] and has the field [name] of type
    [string | Array<string>]. *)
Theorem interface_fields_inherited :
  (∀ (classes : Classes) (props : Props),
     wf_classes classes → props_closed classes props →
     ∃ decls,
       interfaces classes props = Some decls
       ∧ schemaName <$> decls ≡ₚ JsMap.keys classes
       ∧ ∀ i, i ∈ decls →
           NoDup (fields i).*1
           ∧ ∀ p, p ∈ (fields i).*1 ↔ own_or_inherited classes (schemaName i) p)
  ∧ (∀ (Store : Type)
       (getQuads : Store → option str → option str → option str → option str → list Quad)
       (store : Store),
       let classes := (buildGraph getQuads store).1 in
       let props := (buildGraph getQuads store).2 in
       ∃ decls,
         interfaces classes props = Some decls
         ∧ schemaName <$> decls ≡ₚ JsMap.keys classes
         ∧ ∀ i, i ∈ decls →
             NoDup (fields i).*1
             ∧ ∀ p, p ∈ (fields i).*1 ↔ own_or_inherited classes (schemaName i) p)
  ∧ interfaces thing_person thing_person_props
    = Some [ {| ident := js "Thing"; parentIdents := [];
                schemaName := js "Thing"; fields := [] |};
             {| ident := js "Person"; parentIdents := [js "Thing"];
                schemaName := js "Person";
                fields := [(js "name", js "string | Array<string>")] |} ].
Proof.
  split_and!; [exact interfaces_fields | | vm_compute; reflexivity].
  intros Store getQuads store classes props.
  destruct (buildGraph_wf getQuads store) as (Hwf & _ & Hclosed & _).
  now apply interfaces_fields.
Qed.

Lemma thing_person_closed : props_closed thing_person thing_person_props.
Proof.
  intros k c p Hc%JsMap_get_Some Hp.
  cbv [thing_person class] in Hc. fixture_entries Hc; simpl in Hp.
  - now apply elem_of_nil in Hp.
  - apply list_elem_of_singleton in Hp as ->. left.
Qed.

Lemma interface_fields_inherited_witness :
  ∃ decls,
    interfaces thing_person thing_person_props = Some decls
    ∧ schemaName <$> decls ≡ₚ JsMap.keys thing_person
    ∧ ∀ i, i ∈ decls →
        NoDup (fields i).*1
        ∧ ∀ p, p ∈ (fields i).*1 ↔ own_or_inherited thing_person (schemaName i) p.
Proof.
  exact (proj1 interface_fields_inherited thing_person thing_person_props
           thing_person_wf thing_person_closed).
Defined.

(** ** The type mapper: names without a class *)

Lemma identTable_fmap (sorted : list str) :
  (fun n => default (js "undefined") (JsMap.get n (identTable sorted))) <$> sorted
  = toTsIdent <$> sorted.
Proof.
  apply list_fmap_ext. intros k n Hn%list_elem_of_lookup_2.
  now rewrite identTable_get, decide_True.
Qed.

Lemma toTsIdent_nonempty (s : str) : 0 < length (toTsIdent s).
Proof.
  destruct (toTsIdent_valid s) as [Hm _].
  destruct (toTsIdent s); [discriminate | simpl; lia].
Qed.

(** C10, as the code has it: a range name that is no primitive and has no
    entry in the identifier table is sanitized itself and mapped to
    [<sanitized> | string], not to an error or to [unknown].  With the
    table of the emitter, no interface is declared for that name, and the
    identifier is a declared type exactly when some class name sanitizes to
    it or it is one of the five fixed type names of the generated module. *)
Theorem rangeToTs_fallback (r : str) (tbl : list (str * str)) :
  r ∉ primitive_names →
  JsMap.get r tbl = None →
  rangeToTs r tbl = toTsIdent r ++ js " | string"
  ∧ rangeToTs r tbl ≠ js "unknown"
  ∧ ∀ (classes : Classes) (props : Props) sorted decls,
      topoSortClasses classes = Some sorted →
      interfaces classes props = Some decls →
      tbl = identTable sorted →
      (∀ i, i ∈ decls → schemaName i ≠ r)
      ∧ (toTsIdent r ∈ declaredTypes decls
         ↔ (∃ n, n ∈ sorted ∧ toTsIdent n = toTsIdent r)
           ∨ toTsIdent r ∈ [ js "SchemaContext"; js "WithContext"; js "JsonLdCore";
                             js "SchemaTypeName"; js "SchemaTypeMap" ]).
Proof.
  intros Hprim Hget.
  assert (rangeToTs r tbl = toTsIdent r ++ js " | string") as Heq.
  { rewrite rangeToTs_default by assumption. now rewrite Hget. }
  split_and!; [assumption | |].
  - rewrite Heq. intros H%(f_equal length).
    rewrite length_app in H. pose proof (toTsIdent_nonempty r).
    vm_compute (length (js _)) in H. lia.
  - intros classes props sorted decls Hrun Hdecls ->.
    unfold interfaces in Hdecls. rewrite Hrun in Hdecls.
    cbn [mbind option_bind] in Hdecls. apply mapM_Some_1 in Hdecls.
    destruct (interfaceOf_names classes props _ _ _ Hdecls) as [Hnames Hidents].
    rewrite identTable_fmap in Hidents.
    rewrite identTable_get in Hget.
    destruct (decide (r ∈ sorted)) as [|Hr]; [discriminate|].
    split.
    + intros i Hi Hname. apply Hr. rewrite <- Hnames, <- Hname.
      now apply list_elem_of_fmap_2.
    + unfold declaredTypes. change (map ident decls) with (ident <$> decls).
      rewrite Hidents, !elem_of_app, list_elem_of_fmap.
      rewrite !elem_of_cons, !elem_of_nil. split.
      * intros [?|[(n & Hn & Hin)|?]]; [right; tauto | left; eauto | right; tauto].
      * intros [(n & Hin & Hn)|?]; [right; left; eauto | tauto].
Qed.

Lemma rangeToTs_fallback_witness :
  rangeToTs some_thing_range [] = js "Some_Thing | string"
  ∧ rangeToTs some_thing_range [] ≠ js "unknown".
Proof.
  destruct (rangeToTs_fallback some_thing_range []) as (H1 & H2 & _).
  - apply (bool_decide_unpack _). vm_compute. exact I.
  - reflexivity.
  - split; [exact H1 | exact H2].
Defined.

(** C10, as stated, fails when the sanitizer is not injective: the range
    name "Some-Thing" is no primitive and has no entry in the table, and the
    identifier it is mapped to is the one declared for class "Some_Thing". *)
Lemma rangeToTs_fallback_declared :
  (some_thing_range ∉ primitive_names)
  ∧ topoSortClasses some_thing = Some [js "Some_Thing"]
  ∧ JsMap.get some_thing_range (identTable [js "Some_Thing"]) = None
  ∧ rangeToTs some_thing_range (identTable [js "Some_Thing"])
    = js "Some_Thing | string"
  ∧ ∃ decls, interfaces some_thing [] = Some decls
             ∧ js "Some_Thing" ∈ declaredTypes decls.
Proof.
  split_and!.
  - apply (bool_decide_unpack _). vm_compute. exact I.
  - vm_compute. reflexivity.
  - vm_compute. reflexivity.
  - vm_compute. reflexivity.
  - eexists. split; [vm_compute; reflexivity|].
    apply (bool_decide_unpack _). vm_compute. exact I.
Qed.

(** ** The pipeline on an extracted graph *)

Section Pipeline.

Context {Store : Type}.
Context (getQuads : Store → option str → option str → option str → option str → list Quad).
Context (JSON_stringify : str → str).

(** Linearization never fails on what the extractor returns. *)
Lemma topoSortClasses_buildGraph (store : Store) :
  ∃ out, topoSortClasses (buildGraph getQuads store).1 = Some out
         ∧ NoDup out
         ∧ ∀ n, n ∈ out ↔ n ∈ JsMap.keys (buildGraph getQuads store).1.
Proof. apply topoSortClasses_spec, buildGraph_wf. Qed.

(** Neither does the emitter: no lookup fails and no fuel runs out. *)
Lemma generateTs_buildGraph (store : Store) :
  is_Some (generateTs JSON_stringify
             (buildGraph getQuads store).1 (buildGraph getQuads store).2).
Proof.
  destruct (buildGraph_wf getQuads store) as (Hwf & _).
  destruct (interfaces_spec _ (buildGraph getQuads store).2 Hwf)
    as (sorted & decls & Hrun & Hdecls & Hall).
  unfold generateTs. rewrite Hrun. cbn [mbind option_bind].
  rewrite (mapM_Some_2 _ _ _ Hall). cbn [mbind option_bind]. eauto.
Qed.

End Pipeline.

(** ** The topological linearizer: the shape of the output *)

Lemma relax_fold_queue (l : list str) (st : gmap str Z * list str) :
  ∃ new, (foldl relax st l).2 = st.2 ++ new.
Proof.
  revert st. induction l as [|c l IH]; intros [indeg q].
  - exists []. simpl. now rewrite app_nil_r.
  - cbn [foldl]. destruct (IH (relax (indeg, q) c)) as (new & ->).
    unfold relax. cbn [snd]. case_decide.
    + exists (c :: new). now rewrite <- app_assoc.
    + now exists new.
Qed.

(** The queue is first in, first out: what is queued is emitted next, in
    order. *)
Lemma drain_prefix fuel children indeg q out res :
  drain fuel children indeg q out = Some res → ∃ rest, res = out ++ q ++ rest.
Proof.
  revert indeg q out. induction fuel as [|fuel IH]; intros indeg q out; [discriminate|].
  cbn [drain]. destruct q as [|n q].
  - intros [= <-]. exists []. now rewrite !app_nil_r.
  - destruct (relax_fold_queue (children_of children n) (indeg, q)) as (new & Hnew).
    destruct (foldl relax (indeg, q) (children_of children n)) as [indeg1 q1].
    cbn [snd] in Hnew. subst q1. intros (rest & ->)%IH.
    exists (new ++ rest). now rewrite <- !app_assoc.
Qed.

Lemma append_missing_prefix names out : ∃ tail, append_missing names out = out ++ tail.
Proof.
  unfold append_missing. revert out. induction names as [|n names IH]; intros out.
  - exists []. simpl. now rewrite app_nil_r.
  - cbn [foldl]. case_bool_decide; [apply IH|].
    destruct (IH (out ++ [n])) as (tail & ->). exists (n :: tail).
    now rewrite <- app_assoc.
Qed.

Lemma topoSortClasses_queue_first (classes : Classes) out :
  topoSortClasses classes = Some out →
  ∃ indeg children rest,
    build_edges classes (init_tables (sort (JsMap.keys classes))) = Some (indeg, children)
    ∧ out = filter (fun n => indeg_of indeg n = 0%Z) (sort (JsMap.keys classes)) ++ rest.
Proof.
  unfold topoSortClasses, topoSortClasses_fuel.
  destruct (build_edges classes _) as [[indeg children]|]; [|discriminate].
  cbn [mbind option_bind].
  destruct (drain _ _ _ _ _) as [res|] eqn:Hdrain; [|discriminate].
  cbn [mbind option_bind]. intros [= <-].
  apply drain_prefix in Hdrain as (rest & ->).
  destruct (append_missing_prefix (sort (JsMap.keys classes))
              ([] ++ filter (fun n => indeg_of indeg n = 0%Z) (sort (JsMap.keys classes))
                  ++ rest)) as (tail & ->).
  exists indeg, children, (rest ++ tail). split; [reflexivity|].
  now rewrite app_nil_l, <- app_assoc.
Qed.

Lemma StronglySorted_filter {A} (R : relation A) (P : A → Prop)
    `{!∀ x, Decision (P x)} (l : list A) :
  StronglySorted R l → StronglySorted R (filter P l).
Proof.
  induction 1 as [|x l Hl IH Hx]; [constructor|].
  rewrite filter_cons. case_decide; [|assumption].
  constructor; [assumption|].
  apply Forall_forall. intros y [_ Hy]%list_elem_of_filter.
  now apply (proj1 (Forall_forall _ _) Hx).
Qed.

Section Roots.

Context (classes : Classes) (Hwf : wf_classes classes).

Lemma is_root_no_parent n :
  n ∈ JsMap.keys classes →
  is_root classes n = true ↔ ∀ p, ¬ parent_of classes n p.
Proof.
  intros Hn. unfold is_root, parent_of.
  destruct (JsMap.get n classes) as [c|] eqn:Hget;
    [|apply JsMap_get_None in Hget; contradiction].
  rewrite bool_decide_eq_true. unfold resolved_parents. split.
  - intros Hnil p (c' & [= <-] & Hp & Hk).
    eapply (filter_nil_not_elem_of _ _ p Hnil); eassumption.
  - intros Hno.
    destruct (filter _ (ClassDef.parents c)) as [|p l] eqn:E; [reflexivity|].
    exfalso. assert (p ∈ filter (fun p => p ∈ JsMap.keys classes) (ClassDef.parents c))
      as [Hk Hp]%list_elem_of_filter by (rewrite E; left).
    apply (Hno p). eauto.
Qed.

Lemma preds_nil_no_parent n :
  preds (edges_of classes (JsMap.values classes)) n = [] ↔ ∀ p, ¬ parent_of classes n p.
Proof.
  split.
  - intros Hnil p Hp%(edges_parent_of classes Hwf)%elem_of_preds.
    rewrite Hnil in Hp. now apply elem_of_nil in Hp.
  - intros Hno. destruct (preds _ n) as [|p l] eqn:E; [reflexivity|].
    exfalso. apply (Hno p), (edges_parent_of classes Hwf), elem_of_preds.
    rewrite E. left.
Qed.

Lemma roots_first :
  ∃ out rest,
    topoSortClasses classes = Some out
    ∧ out = filter (fun n => is_root classes n = true) (sort (JsMap.keys classes)) ++ rest
    ∧ ((∀ n, n ∈ JsMap.keys classes → is_root classes n = true) →
       out = sort (JsMap.keys classes)).
Proof.
  destruct (topoSortClasses_spec classes Hwf) as (out & Hrun & Hnd & Hmem).
  destruct (topoSortClasses_queue_first classes out Hrun)
    as (indeg & children & rest & Hbuild & Hout).
  destruct (build_edges_record classes (sort (JsMap.keys classes)))
    as (st & Hbuild' & Hindeg & _).
  { intros n. apply sort_elem_of. }
  assert (st = (indeg, children)) as -> by congruence. cbn [fst] in Hindeg.
  assert (filter (fun n => indeg_of indeg n = 0%Z) (sort (JsMap.keys classes))
          = filter (fun n => is_root classes n = true) (sort (JsMap.keys classes)))
    as Hroots.
  { apply filter_ext_elem. intros n Hn. apply (proj1 (sort_elem_of _ _)) in Hn.
    rewrite (is_root_no_parent n Hn), <- preds_nil_no_parent, Hindeg.
    destruct (preds _ n); simpl; split; (discriminate || reflexivity || lia). }
  rewrite Hroots in Hout. exists out, rest. split_and!; [assumption..|].
  intros Hall.
  assert (filter (fun n => is_root classes n = true) (sort (JsMap.keys classes))
          = sort (JsMap.keys classes)) as Hfull.
  { clear -Hall.
    assert (∀ n, n ∈ sort (JsMap.keys classes) → is_root classes n = true) as Hall'
      by (intros n Hn; apply Hall, (proj1 (sort_elem_of _ _)), Hn).
    revert Hall'. generalize (sort (JsMap.keys classes)). intros l.
    induction l as [|x l IH]; intros Hl; [reflexivity|].
    rewrite filter_cons_True by (apply Hl; left). f_equal.
    apply IH. intros; apply Hl. now right. }
  rewrite Hfull in Hout.
  assert (length out = length (sort (JsMap.keys classes))) as Hlen.
  { rewrite sort_length. apply Permutation_length, NoDup_Permutation;
      [assumption | apply Hwf | assumption]. }
  rewrite Hout, length_app in Hlen.
  destruct rest; [now rewrite app_nil_r in Hout | simpl in Hlen; lia].
Qed.

End Roots.

Lemma precedes_elem_of out a b : precedes out a b → a ∈ out ∧ b ∈ out.
Proof. intros (i & j & Hi & Hj & _). split; eapply list_elem_of_lookup_2; eassumption. Qed.

Lemma precedes_trans out a b c :
  NoDup out → precedes out a b → precedes out b c → precedes out a c.
Proof.
  intros Hnd (i & j & Hi & Hj & Hij) (j' & k & Hj' & Hk & Hjk).
  assert (j = j') as <- by (eapply NoDup_lookup; eassumption).
  exists i, k. split_and!; [assumption..|lia].
Qed.

Lemma precedes_irrefl out a : NoDup out → ¬ precedes out a a.
Proof.
  intros Hnd (i & j & Hi & Hj & Hij).
  assert (i = j) by (eapply NoDup_lookup; eassumption). lia.
Qed.

Section Shape.

Context (classes : Classes) (Hwf : wf_classes classes).

(** What the queue emits has no cycle among its ancestors: all of them were
    emitted before it. *)
Lemma emitted_acyclic indeg out X :
  kahn_inv (JsMap.keys classes) (edges_of classes (JsMap.values classes)) indeg [] out →
  X ∈ out → ¬ cyclic_ancestry classes X.
Proof.
  intros [Hnd _ _ _ _ Horder] HX (x & Hreach & Hcycle).
  rewrite app_nil_r in Hnd.
  assert (∀ a b, a ∈ out → parent_of classes a b → precedes out b a) as Hedge.
  { intros a b Ha Hab. apply Horder; [assumption|]. now apply edges_parent_of. }
  assert (∀ a b, tc (parent_of classes) a b → a ∈ out → precedes out b a) as Htc.
  { induction 1 as [a b Hab|a b c Hab Hbc IH]; intros Ha; [now apply Hedge|].
    pose proof (Hedge a b Ha Hab) as Hba.
    apply (precedes_trans out c b a Hnd); [|assumption].
    apply IH. now apply precedes_elem_of in Hba. }
  assert (x ∈ out) as Hx.
  { clear Hcycle. induction Hreach as [|a b c Hab _ IH]; [assumption|].
    apply IH. now apply (precedes_elem_of out b a), Hedge. }
  apply (precedes_irrefl out x Hnd). now apply Htc.
Qed.

Hypothesis parents_NoDup : ∀ k c, (k, c) ∈ classes → NoDup (ClassDef.parents c).

Lemma linear_order_shape :
  ∃ front tail,
    topoSortClasses classes = Some (front ++ tail)
    ∧ (∀ X, X ∈ front ↔ X ∈ JsMap.keys classes ∧ ¬ cyclic_ancestry classes X)
    ∧ (∀ X, X ∈ tail ↔ X ∈ JsMap.keys classes ∧ cyclic_ancestry classes X)
    ∧ StronglySorted str_lt tail
    ∧ (∀ C P, C ∈ front → parent_of classes C P → precedes front P C).
Proof.
  destruct (topoSortClasses_run classes Hwf) as (indeg & out & Hrun & Hinv).
  exists out, (filter (fun n => n ∉ out) (sort (JsMap.keys classes))).
  assert (∀ X, X ∈ out ↔ X ∈ JsMap.keys classes ∧ ¬ cyclic_ancestry classes X) as Hfront.
  { intros X. split.
    - intros HX. split; [|now apply (emitted_acyclic indeg out)].
      apply (inv_universe _ _ _ _ _ Hinv). rewrite app_nil_r. assumption.
    - intros [HX Hacyc].
      now apply (acyclic_ancestry_emitted classes Hwf parents_NoDup indeg out). }
  split_and!; [assumption | assumption | | |].
  - intros X. rewrite list_elem_of_filter, sort_elem_of, Hfront. split.
    + intros [Hnot HX]. split; [assumption|].
      destruct (decide (X ∈ out)) as [Hin|Hout].
      * exfalso. apply Hnot. now apply Hfront.
      * apply (left_behind_cyclic classes Hwf parents_NoDup indeg out Hinv
                 (length (JsMap.keys classes)) [] X); try assumption.
        -- apply length_filter.
        -- now intros v ?%elem_of_nil.
    + intros [HX Hcyc]. split; [|assumption]. intros [_ Hacyc]. contradiction.
  - apply StronglySorted_filter, sort_sorted, Hwf.
  - intros C P HC HP. apply (inv_order _ _ _ _ _ Hinv); [assumption|].
    now apply edges_parent_of.
Qed.

End Shape.

(** X1: the linear order starts with the classes that have no resolvable
    parent, in code-unit order; when no class has one, it is the sorted list
    of the class names. *)
Theorem topoSortClasses_roots_first (classes : Classes) :
  wf_classes classes →
  ∃ out rest,
    topoSortClasses classes = Some out
    ∧ out = filter (fun n => is_root classes n = true) (sort (JsMap.keys classes)) ++ rest
    ∧ ((∀ n, n ∈ JsMap.keys classes → is_root classes n = true) →
       out = sort (JsMap.keys classes)).
Proof. apply roots_first. Qed.

Lemma topoSortClasses_roots_first_witness :
  ∃ out rest,
    topoSortClasses thing_person = Some out
    ∧ out = [js "Thing"] ++ rest
    ∧ ((∀ n, n ∈ JsMap.keys thing_person → is_root thing_person n = true) →
       out = [js "Person"; js "Thing"]).
Proof. exact (topoSortClasses_roots_first thing_person thing_person_wf). Defined.

(** X2: when no class lists a parent twice, the linear order is a front
    followed by a tail: the front holds exactly the classes without a cycle
    among their ancestors, each after all its resolvable parents; the tail
    holds exactly the classes on or below a cycle, in code-unit order. *)
Theorem topoSortClasses_front_and_tail (classes : Classes) :
  wf_classes classes →
  (∀ k c, (k, c) ∈ classes → NoDup (ClassDef.parents c)) →
  ∃ front tail,
    topoSortClasses classes = Some (front ++ tail)
    ∧ (∀ X, X ∈ front ↔ X ∈ JsMap.keys classes ∧ ¬ cyclic_ancestry classes X)
    ∧ (∀ X, X ∈ tail ↔ X ∈ JsMap.keys classes ∧ cyclic_ancestry classes X)
    ∧ StronglySorted str_lt tail
    ∧ (∀ C P, C ∈ front → parent_of classes C P → precedes front P C).
Proof. apply linear_order_shape. Qed.

Lemma topoSortClasses_front_and_tail_witness :
  ∃ front tail,
    topoSortClasses thing_person = Some (front ++ tail)
    ∧ (∀ X, X ∈ front ↔ X ∈ JsMap.keys thing_person ∧ ¬ cyclic_ancestry thing_person X)
    ∧ (∀ X, X ∈ tail ↔ X ∈ JsMap.keys thing_person ∧ cyclic_ancestry thing_person X)
    ∧ StronglySorted str_lt tail
    ∧ (∀ C P, C ∈ front → parent_of thing_person C P → precedes front P C).
Proof.
  exact (topoSortClasses_front_and_tail thing_person thing_person_wf thing_person_parents).
Defined.

(** ** The identifier sanitizer: a closed form *)

Section SanitizerShape.

Lemma lower_facts c :
  is_lower c = true →
  is_ident_part c = true ∧ is_ident_start c = true ∧ is_digit c = false ∧ c ≠ underscore.
Proof.
  unfold is_ident_part, is_ident_start, is_upper, is_lower, is_digit, underscore, dollar.
  repeat match goal with
         | |- context [(?a <=? ?b)%N] => destruct (N.leb_spec a b)
         | |- context [(?a =? ?b)%N] => destruct (N.eqb_spec a b)
         end; simpl; intros; try discriminate; split_and!; try reflexivity; lia.
Qed.

(** Every reserved word is a non-empty run of lower-case letters. *)
Lemma reserved_lower w : w ∈ TS_RESERVED → w ≠ [] ∧ forallb is_lower w = true.
Proof.
  revert w. apply Forall_forall. apply (bool_decide_unpack _). vm_compute. exact I.
Qed.

Lemma clean_lower_inv c c' : clean c = c' → is_lower c' = true → c = c'.
Proof.
  unfold clean. destruct (is_ident_part c); [auto|].
  intros <- H%lower_facts. now destruct H as (_ & _ & _ & ?).
Qed.

Lemma map_clean_lower_inv s w : map clean s = w → forallb is_lower w = true → s = w.
Proof.
  revert w. induction s as [|c s IH]; intros [|c' w]; simpl; try discriminate; auto.
  intros [= Hc Hs] [Hl Hw]%andb_prop. f_equal; [now apply clean_lower_inv | auto].
Qed.

Lemma lower_part s : forallb is_lower s = true → forallb is_ident_part s = true.
Proof.
  induction s as [|c s IH]; simpl; [reflexivity|].
  intros [Hc Hs]%andb_prop. rewrite (proj1 (lower_facts c Hc)). auto.
Qed.

Lemma is_digit_clean c : is_digit (clean c) = is_digit c.
Proof.
  unfold clean. destruct (is_ident_part c) eqn:E; [reflexivity|].
  rewrite ident_part_split in E. apply orb_false_elim in E as [_ ->]. reflexivity.
Qed.

Lemma underscore_first_not_reserved s : underscore :: s ∉ TS_RESERVED.
Proof.
  intros [_ H]%reserved_lower. simpl in H. discriminate.
Qed.

Lemma toTsIdent_closed_form (s : str) :
  toTsIdent s
  = if bool_decide (s ∈ TS_RESERVED) then s ++ [underscore]
    else if starts_with is_digit s || bool_decide (s = []) then underscore :: map clean s
    else map clean s.
Proof.
  rewrite toTsIdent_prefixed. unfold JsSet.has.
  destruct (decide (s ∈ TS_RESERVED)) as [Hres|Hres].
  - rewrite (bool_decide_eq_true_2 (s ∈ TS_RESERVED)) by assumption.
    assert (prefixed s = s) as ->; [|now rewrite bool_decide_eq_true_2].
    destruct (reserved_lower s Hres) as [Hne Hlow]. unfold prefixed.
    rewrite (clean_fixed s (lower_part s Hlow)).
    destruct s as [|c r]; [contradiction|]. simpl in Hlow |- *.
    apply andb_prop in Hlow as [Hc _]. destruct (lower_facts c Hc) as (_ & Hs & Hd & _).
    rewrite Hd. simpl. now rewrite Hs.
  - rewrite (bool_decide_eq_false_2 (s ∈ TS_RESERVED)) by assumption.
    destruct s as [|c r]; [reflexivity|].
    rewrite (bool_decide_eq_false_2 (c :: r = [])) by discriminate.
    cbn [starts_with]. rewrite orb_false_r.
    unfold prefixed. cbn [map starts_with]. rewrite is_digit_clean.
    destruct (is_digit c) eqn:Hd.
    + cbn [starts_with]. rewrite underscore_start.
      now rewrite bool_decide_eq_false_2 by apply underscore_first_not_reserved.
    + cbn [starts_with].
      assert (is_ident_start (clean c) = true) as ->.
      { pose proof (clean_part c) as Hp.
        now rewrite ident_part_split, is_digit_clean, Hd, orb_false_r in Hp. }
      rewrite bool_decide_eq_false_2; [reflexivity|].
      intros Hin. apply Hres. destruct (reserved_lower _ Hin) as [_ Hlow].
      now rewrite (map_clean_lower_inv (c :: r) _ eq_refl Hlow) at 1.
Qed.

End SanitizerShape.

(** X3: the sanitizer in closed form.  A reserved word gets a trailing
    underscore; any other name has every code unit outside
    [[A-Za-z0-9_$]] replaced by an underscore, with one more underscore in
    front when the name is empty or starts with a digit.  So the result is
    never shorter than the name and at most one code unit longer. *)
Theorem toTsIdent_cases (s : str) :
  toTsIdent s
  = (if bool_decide (s ∈ TS_RESERVED) then s ++ [underscore]
     else if starts_with is_digit s || bool_decide (s = []) then underscore :: map clean s
     else map clean s)
  ∧ length s ≤ length (toTsIdent s) ≤ S (length s).
Proof.
  split; [apply toTsIdent_closed_form|].
  rewrite toTsIdent_closed_form.
  repeat case_match; rewrite ?length_app, ?length_cons, ?length_map; simpl; lia.
Qed.

(** X4: the names the sanitizer leaves unchanged are exactly the valid
    identifiers. *)
Theorem toTsIdent_fixed_points (s : str) : toTsIdent s = s ↔ valid_ident s.
Proof.
  split; [intros <-; apply toTsIdent_valid | apply toTsIdent_fixed].
Qed.

(** ** The type mapper: what the type depends on *)

Lemma sorted_ranges_unique (l1 l2 : list str) :
  StronglySorted str_lt l1 → StronglySorted str_lt l2 →
  (∀ r, r ∈ l1 ↔ r ∈ l2) → l1 = l2.
Proof.
  intros H1 H2 Hmem.
  assert (∀ l, StronglySorted str_lt l → NoDup l) as Hnd.
  { induction 1 as [|x l Hl IH Hx]; constructor; [|assumption].
    intros Hin. apply (str_lt_irrefl x). now apply (proj1 (Forall_forall _ _) Hx). }
  apply (StronglySorted_unique_strong str_lt); try assumption.
  - intros x1 x2 _ _ Ha Hb. exfalso.
    apply (str_lt_irrefl x1). eapply str_lt_trans; eassumption.
  - apply NoDup_Permutation; auto.
Qed.

(** X5: the type of a property depends only on the set of its range names:
    neither the order in which the store yields them nor repeated entries
    change it. *)
Theorem propToTs_set_of_ranges (p1 p2 : PropDef.t) (tbl : list (str * str)) :
  (∀ r, r ∈ PropDef.ranges p1 ↔ r ∈ PropDef.ranges p2) →
  propToTs p1 tbl = propToTs p2 tbl.
Proof.
  intros Hsame. unfold propToTs.
  destruct (ranges_sorted p1) as [Hs1 Hm1], (ranges_sorted p2) as [Hs2 Hm2].
  rewrite (sorted_ranges_unique _ _ Hs1 Hs2); [reflexivity|].
  intros r. now rewrite Hm1, Hm2.
Qed.

Lemma propToTs_set_of_ranges_witness :
  propToTs (PropDef.mk (js "p") [] [] [js "URL"; js "Text"; js "URL"]) []
  = propToTs (PropDef.mk (js "q") [] [] [js "Text"; js "URL"]) [].
Proof.
  apply propToTs_set_of_ranges. intros r. cbn [PropDef.ranges].
  rewrite !elem_of_cons, elem_of_nil. tauto.
Defined.

(** X6: the mapper answers [unknown] exactly for the properties without a
    range; a property with a range never gets that type. *)
Theorem propToTs_unknown_iff (prop : PropDef.t) (tbl : list (str * str)) :
  propToTs prop tbl = js "unknown" ↔ PropDef.ranges prop = [].
Proof.
  split; [|intros E; unfold propToTs; now rewrite E].
  unfold propToTs. destruct (ranges_sorted prop) as [_ Hmem].
  destruct (sort (JsSet.of_list (PropDef.ranges prop))) as [|r rs] eqn:E.
  - intros _. destruct (PropDef.ranges prop) as [|r0 rest]; [reflexivity|].
    exfalso. eapply elem_of_nil. apply Hmem. left.
  - intros H%(f_equal length). exfalso.
    rewrite !length_app in H. vm_compute (length (js _)) in H. lia.
Qed.

(** ** Inherited properties: what a class collects *)

(** X7: a class collects its own properties and everything each of its
    listed parents collects, however the parent edges are arranged (cycles
    included); the walk always ends. *)
Theorem collectAllPropsForClass_inherits (classes : Classes) (C P : str)
    (cls : ClassDef.t) :
  JsMap.get C classes = Some cls →
  P ∈ ClassDef.parents cls →
  ∃ outC outP,
    collectAllPropsForClass C classes = Some outC
    ∧ collectAllPropsForClass P classes = Some outP
    ∧ (∀ p, p ∈ ClassDef.properties cls → p ∈ outC)
    ∧ (∀ p, p ∈ outP → p ∈ outC).
Proof.
  intros Hget HP.
  destruct (collectAllPropsForClass_spec classes C) as (outC & -> & _ & HC).
  destruct (collectAllPropsForClass_spec classes P) as (outP & -> & _ & HPs).
  exists outC, outP. split_and!; try reflexivity.
  - intros p Hp. apply HC. exists C, cls. split_and!; [reflexivity | assumption..].
  - intros p (A & c & Hreach & HA & Hp)%HPs. apply HC. exists A, c.
    split_and!; try assumption. eapply rtc_l; [|exact Hreach]. now exists cls.
Qed.

Lemma collectAllPropsForClass_inherits_witness :
  ∃ outC outP,
    collectAllPropsForClass (js "A") two_cycle = Some outC
    ∧ collectAllPropsForClass (js "B") two_cycle = Some outP
    ∧ (∀ p, p ∈ [] → p ∈ outC)
    ∧ (∀ p, p ∈ outP → p ∈ outC).
Proof.
  refine (collectAllPropsForClass_inherits two_cycle (js "A") (js "B") _ eq_refl _).
  simpl. left.
Defined.

(** X8: for a name that is no class of the mapping the collection is
    empty; a missing class is no error. *)
Theorem collectAllPropsForClass_missing (classes : Classes) (C : str) :
  JsMap.get C classes = None → collectAllPropsForClass C classes = Some [].
Proof.
  intros Hget.
  destruct (collectAllPropsForClass_spec classes C) as (out & -> & _ & Hout).
  destruct out as [|p out]; [reflexivity|]. exfalso.
  destruct (proj1 (Hout p)) as (A & c & Hreach & HA & _); [left|].
  apply rtc_inv in Hreach as [<-|(y & (c' & Hc' & _) & _)]; congruence.
Qed.

Lemma collectAllPropsForClass_missing_witness :
  collectAllPropsForClass (js "Place") thing_person = Some [].
Proof. apply collectAllPropsForClass_missing. reflexivity. Defined.

(** ** The graph extractor: what it records *)

Lemma iriToLocalName_Some (iri l : str) :
  iriToLocalName iri = Some l ↔ iri = NS.schema ++ l.
Proof.
  unfold iriToLocalName, startsWith. case_bool_decide as H.
  - split.
    + intros [= <-]. rewrite <- (take_drop (length NS.schema) iri) at 1. now rewrite H.
    + intros ->. now rewrite drop_app_length.
  - split; [discriminate|]. intros ->. exfalso. apply H, take_app_length.
Qed.

Lemma localName_Some (iri l : str) :
  localName iri = Some l ↔ iri = NS.schema ++ l ∧ l ≠ [].
Proof.
  unfold localName. destruct (iriToLocalName iri) as [local|] eqn:E.
  - apply iriToLocalName_Some in E as ->. destruct local as [|c r]; cbn [truthy].
    + split; [discriminate|]. intros [->%app_inv_head Hne]. contradiction.
    + split; [intros [= <-]; split; [reflexivity|discriminate]|].
      now intros [->%app_inv_head _].
  - split; [discriminate|]. intros [Hiri _].
    apply iriToLocalName_Some in Hiri. congruence.
Qed.

(** X9: a local name and its IRI round-trip through the vocabulary
    namespace: [iriToLocalName] strips exactly the prefix
    [https://schema.org/], and answers [null] exactly for the IRIs that do
    not start with it. *)
Theorem iriToLocalName_round_trip :
  (∀ l : str, iriToLocalName (NS.schema ++ l) = Some l)
  ∧ (∀ iri l : str, iriToLocalName iri = Some l → iri = NS.schema ++ l)
  ∧ (∀ iri : str, iriToLocalName iri = None ↔ ∀ l, iri ≠ NS.schema ++ l).
Proof.
  split_and!.
  - intros l. now apply iriToLocalName_Some.
  - intros iri l. apply iriToLocalName_Some.
  - intros iri. split.
    + intros Hnone l Hl%iriToLocalName_Some. congruence.
    + intros Hno. destruct (iriToLocalName iri) as [l|] eqn:E; [|reflexivity].
      apply iriToLocalName_Some in E. now apply Hno in E.
Qed.

Lemma iriToLocalName_round_trip_witness :
  iriToLocalName (js "https://schema.org/Person") = Some (js "Person")
  ∧ iriToLocalName (js "http://www.w3.org/2000/01/rdf-schema#Class") = None.
Proof.
  destruct iriToLocalName_round_trip as (H1 & _ & H3). split.
  - apply (H1 (js "Person")).
  - apply H3. intros l. discriminate.
Defined.

Section MapKeys.

Context {V : Type}.
Implicit Types m : list (str * V).

Lemma JsMap_set_elem_of_keys m k k' v :
  k ∈ JsMap.keys (JsMap.set k' v m) ↔ k = k' ∨ k ∈ JsMap.keys m.
Proof.
  rewrite JsMap_set_keys. case_decide as Hk'.
  - split; [auto | intros [->|?]; assumption].
  - rewrite elem_of_app, list_elem_of_singleton. tauto.
Qed.

Lemma JsMap_has_ext {W : Type} m (m' : list (str * W)) k :
  (∀ x, x ∈ JsMap.keys m ↔ x ∈ JsMap.keys m') → JsMap.has k m = JsMap.has k m'.
Proof.
  intros Hkeys. destruct (JsMap.has k m) eqn:E, (JsMap.has k m') eqn:E';
    try reflexivity.
  - apply JsMap_has_keys, Hkeys, JsMap_has_keys in E. congruence.
  - apply JsMap_has_keys, Hkeys, JsMap_has_keys in E'. congruence.
Qed.

Lemma JsMap_get_fmap (f : V → V) m k :
  JsMap.get k (prod_map id f <$> m) = f <$> JsMap.get k m.
Proof.
  induction m as [|[k' v] m IH]; [reflexivity|].
  rewrite fmap_cons. cbn [prod_map id fst snd JsMap.get].
  case_decide; [reflexivity | exact IH].
Qed.

End MapKeys.

Section Recorded.

Context {Store : Type}.
Context (getQuads : Store → option str → option str → option str → option str → list Quad).
Context (store : Store).

Lemma addClass_fold_keys quads (m : Classes) k :
  k ∈ JsMap.keys (foldl addClass m quads)
  ↔ k ∈ JsMap.keys m
    ∨ ∃ q, q ∈ quads ∧ isNamedNode (subject q) = true
           ∧ localName (value (subject q)) = Some k.
Proof.
  revert m. induction quads as [|q quads IH]; intros m.
  - simpl. split; [auto | intros [?|(q & ?%elem_of_nil & _)]; [assumption|contradiction]].
  - cbn [foldl]. rewrite IH. unfold addClass at 1.
    destruct (isNamedNode (subject q)) eqn:Hn; cbn [negb].
    + destruct (localName (value (subject q))) as [local|] eqn:Hl.
      * rewrite JsMap_set_elem_of_keys. split.
        -- intros [[->|?]|(q' & Hq' & H)]; [right; exists q; split; [left|auto]
             | now left | right; exists q'; split; [now right|auto]].
        -- intros [?|(q' & [->|Hq']%elem_of_cons & Hn' & Hl')];
             [left; now right | left; left; congruence | right; eauto].
      * split; [intros [?|(q' & Hq' & H)]; [now left | right; exists q'; split; [now right|auto]]|].
        intros [?|(q' & [->|Hq']%elem_of_cons & Hn' & Hl')];
          [now left | congruence | right; eauto].
    + split; [intros [?|(q' & Hq' & H)]; [now left | right; exists q'; split; [now right|auto]]|].
      intros [?|(q' & [->|Hq']%elem_of_cons & Hn' & Hl')];
        [now left | congruence | right; eauto].
Qed.

Lemma addClass_fold_fresh quads (m : Classes) :
  (∀ k c, (k, c) ∈ m → c = fresh_class k ∧ k ≠ []) →
  ∀ k c, (k, c) ∈ foldl addClass m quads → c = fresh_class k ∧ k ≠ [].
Proof.
  revert m. induction quads as [|q quads IH]; intros m Hm; [exact Hm|].
  cbn [foldl]. apply IH. unfold addClass.
  destruct (isNamedNode (subject q)); cbn [negb]; [|exact Hm].
  destruct (localName (value (subject q))) as [local|] eqn:Hl; [|exact Hm].
  apply localName_Some in Hl as [Hiri Hne].
  intros k c [[-> ->]|Hin]%JsMap_elem_of_set; [|auto].
  rewrite Hiri. split; [reflexivity | assumption].
Qed.

Lemma addProp_fold_keys quads (m : Props) k :
  k ∈ JsMap.keys (foldl addProp m quads)
  ↔ k ∈ JsMap.keys m
    ∨ ∃ q, q ∈ quads ∧ isNamedNode (subject q) = true
           ∧ localName (value (subject q)) = Some k.
Proof.
  revert m. induction quads as [|q quads IH]; intros m.
  - simpl. split; [auto | intros [?|(q & ?%elem_of_nil & _)]; [assumption|contradiction]].
  - cbn [foldl]. rewrite IH. unfold addProp at 1.
    destruct (isNamedNode (subject q)) eqn:Hn; cbn [negb].
    + destruct (localName (value (subject q))) as [local|] eqn:Hl.
      * rewrite JsMap_set_elem_of_keys. split.
        -- intros [[->|?]|(q' & Hq' & H)]; [right; exists q; split; [left|auto]
             | now left | right; exists q'; split; [now right|auto]].
        -- intros [?|(q' & [->|Hq']%elem_of_cons & Hn' & Hl')];
             [left; now right | left; left; congruence | right; eauto].
      * split; [intros [?|(q' & Hq' & H)]; [now left | right; exists q'; split; [now right|auto]]|].
        intros [?|(q' & [->|Hq']%elem_of_cons & Hn' & Hl')];
          [now left | congruence | right; eauto].
    + split; [intros [?|(q' & Hq' & H)]; [now left | right; exists q'; split; [now right|auto]]|].
      intros [?|(q' & [->|Hq']%elem_of_cons & Hn' & Hl')];
        [now left | congruence | right; eauto].
Qed.

Lemma addProp_fold_fresh quads (m : Props) :
  (∀ k c, (k, c) ∈ m → c = fresh_prop k ∧ k ≠ []) →
  ∀ k c, (k, c) ∈ foldl addProp m quads → c = fresh_prop k ∧ k ≠ [].
Proof.
  revert m. induction quads as [|q quads IH]; intros m Hm; [exact Hm|].
  cbn [foldl]. apply IH. unfold addProp.
  destruct (isNamedNode (subject q)); cbn [negb]; [|exact Hm].
  destruct (localName (value (subject q))) as [local|] eqn:Hl; [|exact Hm].
  apply localName_Some in Hl as [Hiri Hne].
  intros k c [[-> ->]|Hin]%JsMap_elem_of_set; [|auto].
  rewrite Hiri. split; [reflexivity | assumption].
Qed.

Lemma attach_frame_refl (m : Classes) : attach_frame [] m m.
Proof.
  intros k. split; [auto|]. intros c0 Hc0. exists c0. split_and!; try reflexivity; try assumption.
  intros p. split; [auto | intros [?|?%elem_of_nil]; [assumption|contradiction]].
Qed.

Lemma attach_frame_step pairs (m0 m : Classes) prop d :
  attach_frame pairs m0 m →
  attach_frame (pairs ++ [(PropDef.name prop, d)]) m0 (attach prop m d).
Proof.
  intros H k. destruct (H k) as [Hnone Hsome]. unfold attach.
  destruct (JsMap.get d m) as [cls|] eqn:Hd.
  - rewrite JsMap_get_set. destruct (decide (k = d)) as [->|Hne].
    + split; [intros H0%Hnone; congruence|].
      intros c0 (c & Hc & Hn & Hi & Hp & Hprops)%Hsome.
      assert (c = cls) as -> by congruence.
      eexists. split; [reflexivity|]. cbn [ClassDef.name ClassDef.iri
        ClassDef.parents ClassDef.properties]. split_and!; try assumption.
      intros p. rewrite JsSet_add_elem_of, Hprops, elem_of_app, list_elem_of_singleton.
      split; [intros [->|[?|?]]; auto | intros [?|[?|[= ->]]]; auto].
    + split; [assumption|].
      intros c0 (c & Hc & Hn & Hi & Hp & Hprops)%Hsome.
      exists c. split_and!; try assumption.
      intros p. rewrite Hprops, elem_of_app, list_elem_of_singleton.
      split; [intros [?|?]; auto | intros [?|[?|[= _ ->]]]; auto; contradiction].
  - split; [assumption|].
    intros c0 Hc0. destruct (Hsome c0 Hc0) as (c & Hc & Hn & Hi & Hp & Hprops).
    exists c. split_and!; try assumption.
    intros p. rewrite Hprops, elem_of_app, list_elem_of_singleton.
    split; [intros [?|?]; auto | intros [?|[?|[= _ ->]]]; auto; congruence].
Qed.

Lemma attach_frame_domains pairs (m0 m : Classes) prop ds :
  attach_frame pairs m0 m →
  attach_frame (pairs ++ ((fun d => (PropDef.name prop, d)) <$> ds)) m0
    (foldl (attach prop) m ds).
Proof.
  revert pairs m. induction ds as [|d ds IH]; intros pairs m H.
  - simpl. now rewrite app_nil_r.
  - cbn [foldl]. rewrite fmap_cons, cons_middle, app_assoc.
    apply IH. now apply attach_frame_step.
Qed.

Lemma attach_frame_props pairs (m0 m : Classes) (ps : list PropDef.t) :
  attach_frame pairs m0 m →
  attach_frame (pairs ++ domain_pairs ps) m0
    (foldl (fun classes prop => foldl (attach prop) classes (PropDef.domains prop)) m ps).
Proof.
  revert pairs m. induction ps as [|prop ps IH]; intros pairs m H.
  - unfold domain_pairs. simpl. now rewrite app_nil_r.
  - cbn [foldl]. unfold domain_pairs. rewrite bind_cons, app_assoc.
    apply IH. now apply attach_frame_domains.
Qed.

Lemma elem_of_domain_pairs (ps : list PropDef.t) p k :
  (p, k) ∈ domain_pairs ps
  ↔ ∃ prop, prop ∈ ps ∧ PropDef.name prop = p ∧ k ∈ PropDef.domains prop.
Proof.
  unfold domain_pairs. rewrite list_elem_of_bind. split.
  - intros (prop & (d & [= -> ->] & Hd)%list_elem_of_fmap & Hprop). eauto.
  - intros (prop & Hprop & <- & Hk). exists prop. split; [|assumption].
    apply list_elem_of_fmap. eauto.
Qed.

Lemma attach_properties_NoDup prop (m : Classes) d :
  (∀ k c, (k, c) ∈ m → NoDup (ClassDef.properties c)) →
  ∀ k c, (k, c) ∈ attach prop m d → NoDup (ClassDef.properties c).
Proof.
  intros Hm k c. unfold attach.
  destruct (JsMap.get d m) as [cls|] eqn:Hd; [|apply Hm].
  intros [[-> ->]|Hin]%JsMap_elem_of_set; [|eauto].
  cbn [ClassDef.properties]. apply JsSet_add_NoDup.
  eapply Hm, JsMap_get_Some, Hd.
Qed.

Lemma attach_fold_properties_NoDup (ps : list PropDef.t) (m : Classes) :
  (∀ k c, (k, c) ∈ m → NoDup (ClassDef.properties c)) →
  ∀ k c,
    (k, c) ∈ foldl (fun classes prop => foldl (attach prop) classes (PropDef.domains prop))
               m ps →
    NoDup (ClassDef.properties c).
Proof.
  revert m. induction ps as [|prop ps IH]; intros m Hm; [exact Hm|].
  cbn [foldl]. apply IH. generalize (PropDef.domains prop). intros ds.
  revert m Hm. induction ds as [|d ds IHd]; intros m Hm; [exact Hm|].
  cbn [foldl]. apply IHd. now apply attach_properties_NoDup.
Qed.

End Recorded.

Section Extracted.

Context {Store : Type}.
Context (getQuads : Store → option str → option str → option str → option str → list Quad).
Context (store : Store).

Lemma buildGraph_stages :
  buildGraph getQuads store
  = (foldl (fun classes prop => foldl (attach prop) classes (PropDef.domains prop))
       (prod_map id (resolveParents getQuads store (declaredClasses getQuads store))
          <$> declaredClasses getQuads store)
       (JsMap.values (buildGraph getQuads store).2),
     prod_map id (resolveDomainsAndRanges getQuads store)
       <$> foldl addProp [] (propQuads getQuads store)).
Proof. reflexivity. Qed.

Lemma omap_resolvable (m : Classes) (l : list str) :
  omap (fun pIri => pName ← localName pIri;
                    if JsMap.has pName m then Some pName else None) l
  = List.filter (fun p => JsMap.has p m) (omap localName l).
Proof.
  induction l as [|x l IH]; [reflexivity|].
  cbn [omap list_omap]. destruct (localName x) as [p|]; cbn [mbind option_bind].
  - cbn [List.filter]. destruct (JsMap.has p m); now rewrite <- IH.
  - exact IH.
Qed.

Lemma declaredClasses_fresh k c :
  (k, c) ∈ declaredClasses getQuads store → c = fresh_class k ∧ k ≠ [].
Proof. apply addClass_fold_fresh. now intros ? ? ?%elem_of_nil. Qed.

Lemma declaredClasses_NoDup : NoDup (JsMap.keys (declaredClasses getQuads store)).
Proof.
  apply (addClass_fold (classQuads getQuads store) []).
  split; [split; [constructor|]|]; now intros ? ? ?%elem_of_nil.
Qed.

Lemma buildGraph_frame :
  attach_frame (domain_pairs (JsMap.values (buildGraph getQuads store).2))
    (prod_map id (resolveParents getQuads store (declaredClasses getQuads store))
       <$> declaredClasses getQuads store)
    (buildGraph getQuads store).1.
Proof.
  rewrite buildGraph_stages at 2. cbn [fst].
  rewrite <- (app_nil_l (domain_pairs _)).
  apply attach_frame_props, attach_frame_refl.
Qed.

Lemma buildGraph_keys k :
  k ∈ JsMap.keys (buildGraph getQuads store).1
  ↔ k ∈ JsMap.keys (declaredClasses getQuads store).
Proof.
  destruct (buildGraph_frame k) as [Hnone Hsome].
  rewrite JsMap_get_fmap in Hnone, Hsome.
  destruct (JsMap.get k (declaredClasses getQuads store)) as [c0|] eqn:E;
    cbn [fmap option_fmap option_map] in Hnone, Hsome.
  - destruct (Hsome _ eq_refl) as (c & Hc%JsMap_get_Some & _).
    split; intros _.
    + apply JsMap_get_Some in E. apply list_elem_of_fmap. now exists (k, c0).
    + apply list_elem_of_fmap. now exists (k, c).
  - specialize (Hnone eq_refl). apply JsMap_get_None in Hnone, E. tauto.
Qed.

(** One class of the extracted graph, field by field. *)
Lemma buildGraph_class k c :
  (k, c) ∈ (buildGraph getQuads store).1 →
  k ≠ []
  ∧ ClassDef.name c = k
  ∧ ClassDef.iri c = NS.schema ++ k
  ∧ ClassDef.parents c = subClassOf getQuads store (buildGraph getQuads store).1 k
  ∧ NoDup (ClassDef.properties c)
  ∧ ∀ p, p ∈ ClassDef.properties c
         ↔ ∃ prop, (p, prop) ∈ (buildGraph getQuads store).2
                   ∧ k ∈ PropDef.domains prop.
Proof.
  intros Hin.
  destruct (buildGraph_wf getQuads store) as ([Hnd Hname] & [Hpnd Hpname] & _ & _).
  pose proof (JsMap_elem_of_get _ _ _ Hnd Hin) as Hget.
  destruct (buildGraph_frame k) as [Hnone Hsome].
  destruct (JsMap.get k (prod_map id
      (resolveParents getQuads store (declaredClasses getQuads store))
      <$> declaredClasses getQuads store)) as [c1|] eqn:E1;
    [|specialize (Hnone eq_refl); congruence].
  destruct (Hsome c1 eq_refl) as (c' & Hc' & Hn & Hi & Hp & Hprops).
  assert (c' = c) as -> by congruence.
  rewrite JsMap_get_fmap in E1.
  destruct (JsMap.get k (declaredClasses getQuads store)) as [c0|] eqn:E0; [|discriminate].
  injection E1 as <-.
  destruct (declaredClasses_fresh k c0 (JsMap_get_Some _ _ _ E0)) as [-> Hne].
  cbn [resolveParents fresh_class ClassDef.name ClassDef.iri ClassDef.parents
       ClassDef.properties] in *.
  split_and!; try assumption.
  - rewrite Hp, app_nil_l, omap_resolvable. unfold subClassOf.
    apply filter_ext. intros p. apply JsMap_has_ext. intros x.
    symmetry. apply buildGraph_keys.
  - apply (attach_fold_properties_NoDup
             (JsMap.values (buildGraph getQuads store).2)
             (prod_map id (resolveParents getQuads store (declaredClasses getQuads store))
                <$> declaredClasses getQuads store)) with (k := k).
    + intros k' c' ([k0 c0] & [= -> ->] & Hin0)%list_elem_of_fmap.
      cbn [resolveParents ClassDef.properties].
      destruct (declaredClasses_fresh k0 c0 Hin0) as [-> _]. constructor.
    + exact Hin.
  - intros p. rewrite Hprops, elem_of_domain_pairs. split.
    + intros [?%elem_of_nil|(prop & ([p' prop'] & -> & Hprop)%list_elem_of_fmap
                                     & <- & Hk)]; [contradiction|].
      cbn [snd] in *. exists prop'. split; [|assumption].
      now rewrite (Hpname p' prop' Hprop).
    + intros (prop & Hprop & Hk). right. exists prop. split_and!; try assumption.
      * apply list_elem_of_fmap. now exists (p, prop).
      * now apply Hpname.
Qed.

Lemma buildGraph_prop p prop :
  (p, prop) ∈ (buildGraph getQuads store).2 →
  p ≠ []
  ∧ PropDef.name prop = p
  ∧ PropDef.iri prop = NS.schema ++ p
  ∧ PropDef.domains prop
    = omap localName (getObjects getQuads store (NS.schema ++ p) IRI.schemaDomainIncludes)
  ∧ PropDef.ranges prop
    = omap localName (getObjects getQuads store (NS.schema ++ p) IRI.schemaRangeIncludes).
Proof.
  rewrite buildGraph_stages. cbn [snd].
  intros ([p0 prop0] & [= -> ->] & Hin)%list_elem_of_fmap.
  apply addProp_fold_fresh in Hin as [-> Hne]; [|now intros ? ? ?%elem_of_nil].
  cbn [resolveDomainsAndRanges fresh_prop PropDef.name PropDef.iri PropDef.domains
       PropDef.ranges].
  split_and!; try reflexivity. assumption.
Qed.

(** X10: the classes of the extracted graph are exactly the local names
    of the named-node subjects typed [rdfs:Class] whose IRI lies in the
    vocabulary namespace and has a non-empty local part; each is filed
    once.  Blank-node subjects and IRIs of other namespaces are skipped. *)
Theorem buildGraph_classes_declared :
  NoDup (JsMap.keys (buildGraph getQuads store).1)
  ∧ ∀ k, k ∈ JsMap.keys (buildGraph getQuads store).1
         ↔ k ≠ []
           ∧ ∃ q, q ∈ classQuads getQuads store
                  ∧ isNamedNode (subject q) = true
                  ∧ value (subject q) = NS.schema ++ k.
Proof.
  split; [apply (buildGraph_wf getQuads store)|].
  intros k. rewrite buildGraph_keys. unfold declaredClasses.
  rewrite addClass_fold_keys. split.
  - intros [?%elem_of_nil|(q & Hq & Hn & [Hv Hne]%localName_Some)]; [contradiction|].
    split; [assumption|]. now exists q.
  - intros (Hne & q & Hq & Hn & Hv). right. exists q. split_and!; try assumption.
    now apply localName_Some.
Qed.

(** X11: every class of the extracted graph is filed under its own name,
    carries the IRI of that name in the vocabulary namespace, and lists as
    parents the [rdfs:subClassOf] objects of that IRI that are classes of
    the graph, in store order; a parent outside the graph, or declared
    after its child, is kept or dropped by that test alone. *)
Theorem buildGraph_class_parents k c :
  (k, c) ∈ (buildGraph getQuads store).1 →
  ClassDef.name c = k
  ∧ ClassDef.iri c = NS.schema ++ k
  ∧ ClassDef.parents c = subClassOf getQuads store (buildGraph getQuads store).1 k
  ∧ ∀ p, p ∈ ClassDef.parents c → p ∈ JsMap.keys (buildGraph getQuads store).1.
Proof.
  intros (_ & Hn & Hi & Hp & _)%buildGraph_class. split_and!; try assumption.
  intros p. rewrite Hp. unfold subClassOf.
  intros [_ Hhas]%list_elem_of_In%filter_In. now apply JsMap_has_keys.
Qed.

(** X12: a class of the extracted graph lists a property exactly when the
    definition of that property names the class among its domains, and
    lists it once, however often the store repeats the statement. *)
Theorem buildGraph_class_properties k c :
  (k, c) ∈ (buildGraph getQuads store).1 →
  NoDup (ClassDef.properties c)
  ∧ ∀ p, p ∈ ClassDef.properties c
         ↔ ∃ prop, (p, prop) ∈ (buildGraph getQuads store).2
                   ∧ k ∈ PropDef.domains prop.
Proof. intros (_ & _ & _ & _ & Hnd & Hprops)%buildGraph_class. now split. Qed.

(** X13: the property definitions of the extracted graph are the local
    names of the named-node subjects typed [rdf:Property]; each records as
    domains and ranges the local names of all its [domainIncludes] and
    [rangeIncludes] objects, in store order, whether or not they name
    classes of the graph. *)
Theorem buildGraph_props_recorded :
  (∀ p, p ∈ JsMap.keys (buildGraph getQuads store).2
        ↔ p ≠ []
          ∧ ∃ q, q ∈ propQuads getQuads store
                 ∧ isNamedNode (subject q) = true
                 ∧ value (subject q) = NS.schema ++ p)
  ∧ ∀ p prop, (p, prop) ∈ (buildGraph getQuads store).2 →
      PropDef.name prop = p
      ∧ PropDef.iri prop = NS.schema ++ p
      ∧ PropDef.domains prop
        = omap localName
            (getObjects getQuads store (NS.schema ++ p) IRI.schemaDomainIncludes)
      ∧ PropDef.ranges prop
        = omap localName
            (getObjects getQuads store (NS.schema ++ p) IRI.schemaRangeIncludes).
Proof.
  split.
  - intros p. rewrite buildGraph_stages. cbn [snd].
    rewrite JsMap_keys_fmap, addProp_fold_keys. split.
    + intros [?%elem_of_nil|(q & Hq & Hn & [Hv Hne]%localName_Some)]; [contradiction|].
      split; [assumption|]. now exists q.
    + intros (Hne & q & Hq & Hn & Hv). right. exists q. split_and!; try assumption.
      now apply localName_Some.
  - intros p prop (_ & H)%buildGraph_prop. exact H.
Qed.

End Extracted.

Lemma buildGraph_class_parents_witness :
  ClassDef.name (ClassDef.mk (js "Person") (NS.schema ++ js "Person") [js "Thing"] [js "name"])
  = js "Person"
  ∧ ClassDef.iri (ClassDef.mk (js "Person") (NS.schema ++ js "Person") [js "Thing"] [js "name"])
    = NS.schema ++ js "Person"
  ∧ ClassDef.parents
      (ClassDef.mk (js "Person") (NS.schema ++ js "Person") [js "Thing"] [js "name"])
    = subClassOf ListStore.getQuads thing_person_store
        (buildGraph ListStore.getQuads thing_person_store).1 (js "Person")
  ∧ ∀ p, p ∈ ClassDef.parents
               (ClassDef.mk (js "Person") (NS.schema ++ js "Person") [js "Thing"] [js "name"]) →
         p ∈ JsMap.keys (buildGraph ListStore.getQuads thing_person_store).1.
Proof.
  apply (buildGraph_class_parents ListStore.getQuads thing_person_store).
  vm_compute. right. left.
Defined.

Lemma buildGraph_class_properties_witness :
  NoDup (ClassDef.properties
           (ClassDef.mk (js "Person") (NS.schema ++ js "Person") [js "Thing"] [js "name"]))
  ∧ ∀ p, p ∈ ClassDef.properties
               (ClassDef.mk (js "Person") (NS.schema ++ js "Person") [js "Thing"] [js "name"])
         ↔ ∃ prop, (p, prop) ∈ (buildGraph ListStore.getQuads thing_person_store).2
                   ∧ js "Person" ∈ PropDef.domains prop.
Proof.
  apply (buildGraph_class_properties ListStore.getQuads thing_person_store).
  vm_compute. right. left.
Defined.

Lemma buildGraph_props_recorded_witness :
  PropDef.name name_prop = js "name"
  ∧ PropDef.iri name_prop = NS.schema ++ js "name"
  ∧ PropDef.domains name_prop
    = omap localName
        (getObjects ListStore.getQuads thing_person_store (NS.schema ++ js "name")
           IRI.schemaDomainIncludes)
  ∧ PropDef.ranges name_prop
    = omap localName
        (getObjects ListStore.getQuads thing_person_store (NS.schema ++ js "name")
           IRI.schemaRangeIncludes).
Proof.
  destruct (buildGraph_props_recorded ListStore.getQuads thing_person_store) as [_ H].
  apply (H (js "name") name_prop). vm_compute. left.
Defined.

(** ** The emitter: identifiers, parents and fields of an interface *)

Section EmitterMore.

Context (classes : Classes) (props : Props).

Lemma parentIdents_table (sorted parents : list str) :
  (∀ p, p ∈ parents → p ∈ sorted) →
  List.filter truthy (omap (fun p => JsMap.get p (identTable sorted)) parents)
  = toTsIdent <$> parents.
Proof.
  induction parents as [|p l IH]; intros Hin; [reflexivity|].
  cbn [omap list_omap]. rewrite identTable_get, decide_True by (apply Hin; left).
  cbn [List.filter]. pose proof (toTsIdent_nonempty p) as Hne.
  destruct (toTsIdent p) as [|c r] eqn:E; [simpl in Hne; lia|].
  cbn [truthy]. rewrite fmap_cons, E. f_equal. apply IH.
  intros q Hq. apply Hin. now right.
Qed.

Lemma filter_has_keys (l : list str) :
  List.filter (fun p => JsMap.has p classes) l
  = filter (fun p => p ∈ JsMap.keys classes) l.
Proof.
  induction l as [|p l IH]; [reflexivity|].
  rewrite filter_cons. cbn [List.filter].
  destruct (JsMap.has p classes) eqn:E.
  - rewrite decide_True by now apply JsMap_has_keys. now f_equal.
  - rewrite decide_False; [exact IH|]. intros H%JsMap_has_keys. congruence.
Qed.

Lemma interfaceOf_parts (sorted : list str) C cls i :
  (∀ n, n ∈ JsMap.keys classes → n ∈ sorted) →
  JsMap.get C classes = Some cls →
  interfaceOf classes props (identTable sorted) C = Some i →
  parentIdents i = toTsIdent <$> resolved_parents classes cls
  ∧ StronglySorted str_lt (fields i).*1
  ∧ ∀ p t, (p, t) ∈ fields i
           ↔ own_or_inherited classes C p
             ∧ ∃ prop, JsMap.get p props = Some prop
                       ∧ t = propToTs prop (identTable sorted).
Proof.
  intros Hsorted Hget. unfold interfaceOf. rewrite Hget. cbn [mbind option_bind].
  destruct (collectAllPropsForClass_spec classes C) as (out & -> & Hnd & Hmem).
  cbn [fmap option_fmap option_map mbind option_bind]. intros [= <-].
  cbn [parentIdents fields]. split_and!.
  - rewrite parentIdents_table.
    + unfold resolved_parents. now rewrite filter_has_keys.
    + intros p [_ Hp]%list_elem_of_In%filter_In. now apply Hsorted, JsMap_has_keys.
  - rewrite fields_names. now apply StronglySorted_filter, sort_sorted.
  - intros p t. rewrite list_elem_of_omap. split.
    + intros (x & Hx & Hf). destruct (JsMap.get x props) as [prop|] eqn:E; [|discriminate].
      cbn [mbind option_bind] in Hf. injection Hf as -> <-.
      split; [now apply Hmem, sort_elem_of | now exists prop].
    + intros (Hp & prop & Hprop & ->). exists p. split.
      * now apply sort_elem_of, Hmem.
      * now rewrite Hprop.
Qed.

(** X14: on a mapping with one entry per class name, the emitter declares
    the interfaces in the linear order, names each with the sanitized class
    name, and extends it with the sanitized names of the class's resolvable
    parents, in the order and as often as the class lists them; the filter
    on identifiers drops none of them. *)
Theorem interfaces_idents_and_parents :
  wf_classes classes →
  ∃ sorted decls,
    topoSortClasses classes = Some sorted
    ∧ interfaces classes props = Some decls
    ∧ schemaName <$> decls = sorted
    ∧ ident <$> decls = toTsIdent <$> sorted
    ∧ ∀ i cls, i ∈ decls → JsMap.get (schemaName i) classes = Some cls →
        parentIdents i = toTsIdent <$> resolved_parents classes cls.
Proof.
  intros Hwf.
  destruct (topoSortClasses_spec classes Hwf) as (sorted0 & Hrun0 & _ & Hmem).
  destruct (interfaces_spec classes props Hwf) as (sorted & decls & Hrun & Hdecls & Hall).
  assert (sorted0 = sorted) as -> by congruence.
  exists sorted, decls. destruct (interfaceOf_names classes props _ _ _ Hall) as [Hn Hi].
  split_and!; try assumption.
  - rewrite Hi. apply identTable_fmap.
  - intros i cls [k Hk]%list_elem_of_lookup Hget.
    destruct (Forall2_lookup_r _ _ _ _ _ Hall Hk) as (n & Hn' & Hof).
    assert (schemaName i = n) as Hname.
    { apply (f_equal (fun l => l !! k)) in Hn.
      rewrite list_lookup_fmap, Hk, Hn' in Hn. now injection Hn. }
    rewrite Hname in Hget.
    apply (interfaceOf_parts sorted n cls i); try assumption.
    intros x. apply Hmem.
Qed.

(** X15: the fields of every emitted interface are strictly ascending by
    property name, and they are the own and inherited properties of the
    class that have a definition, each typed by [propToTs] on that
    definition; a property without a definition is left out silently. *)
Theorem interfaces_fields_sorted_typed :
  wf_classes classes →
  ∃ sorted decls,
    topoSortClasses classes = Some sorted
    ∧ interfaces classes props = Some decls
    ∧ ∀ i, i ∈ decls →
        StronglySorted str_lt (fields i).*1
        ∧ ∀ p t, (p, t) ∈ fields i
                 ↔ own_or_inherited classes (schemaName i) p
                   ∧ ∃ prop, JsMap.get p props = Some prop
                             ∧ t = propToTs prop (identTable sorted).
Proof.
  intros Hwf.
  destruct (topoSortClasses_spec classes Hwf) as (sorted0 & Hrun0 & _ & Hmem).
  destruct (interfaces_spec classes props Hwf) as (sorted & decls & Hrun & Hdecls & Hall).
  assert (sorted0 = sorted) as -> by congruence.
  exists sorted, decls. destruct (interfaceOf_names classes props _ _ _ Hall) as [Hn Hi].
  split_and!; try assumption.
  intros i [k Hk]%list_elem_of_lookup.
  destruct (Forall2_lookup_r _ _ _ _ _ Hall Hk) as (n & Hn' & Hof).
  assert (schemaName i = n) as ->.
  { apply (f_equal (fun l => l !! k)) in Hn.
    rewrite list_lookup_fmap, Hk, Hn' in Hn. now injection Hn. }
  assert (n ∈ JsMap.keys classes) as Hkey
    by (apply Hmem; now apply list_elem_of_lookup_2 in Hn').
  destruct (JsMap.get n classes) as [cls|] eqn:Hget;
    [|apply JsMap_get_None in Hget; contradiction].
  destruct (interfaceOf_parts sorted n cls i) as (_ & Hs & Hf); try assumption.
  - intros x. apply Hmem.
  - now split.
Qed.

End EmitterMore.

Lemma interfaces_idents_and_parents_witness :
  ∃ sorted decls,
    topoSortClasses thing_person = Some sorted
    ∧ interfaces thing_person thing_person_props = Some decls
    ∧ schemaName <$> decls = sorted
    ∧ ident <$> decls = toTsIdent <$> sorted
    ∧ ∀ i cls, i ∈ decls → JsMap.get (schemaName i) thing_person = Some cls →
        parentIdents i = toTsIdent <$> resolved_parents thing_person cls.
Proof.
  apply (interfaces_idents_and_parents thing_person thing_person_props).
  apply thing_person_wf.
Defined.

Lemma interfaces_fields_sorted_typed_witness :
  ∃ sorted decls,
    topoSortClasses thing_person = Some sorted
    ∧ interfaces thing_person thing_person_props = Some decls
    ∧ ∀ i, i ∈ decls →
        StronglySorted str_lt (fields i).*1
        ∧ ∀ p t, (p, t) ∈ fields i
                 ↔ own_or_inherited thing_person (schemaName i) p
                   ∧ ∃ prop, JsMap.get p thing_person_props = Some prop
                             ∧ t = propToTs prop (identTable sorted).
Proof.
  apply (interfaces_fields_sorted_typed thing_person thing_person_props).
  apply thing_person_wf.
Defined.

(** ** The generator, end to end *)

Section PipelineMore.

Context {Store : Type}.
Context (getQuads : Store → option str → option str → option str → option str → list Quad).
Context (JSON_stringify : str → str).

Lemma identOf_sorted (sorted : list str) (f : str → str → str) :
  map (fun n => f n (default (js "undefined") (JsMap.get n (identTable sorted)))) sorted
  = map (fun n => f n (toTsIdent n)) sorted.
Proof.
  apply map_ext_in. intros n Hn%list_elem_of_In.
  now rewrite identTable_get, decide_True.
Qed.

(** X16: on every graph the extractor builds, [generateTs] returns: no
    class lookup fails and no loop runs out.  The module is the header, the
    interfaces in the linear order, the union of the class names, and the
    two name-to-identifier maps, whose identifiers are the sanitized class
    names: no [undefined] is printed. *)
Theorem generateTs_extracted (store : Store) :
  let classes := (buildGraph getQuads store).1 in
  let props := (buildGraph getQuads store).2 in
  ∃ sorted decls,
    topoSortClasses classes = Some sorted
    ∧ interfaces classes props = Some decls
    ∧ generateTs JSON_stringify classes props
      = Some (join newline
          ([ header ] ++ map (printInterface JSON_stringify) decls
           ++ [ js "export type SchemaTypeName = "
                  ++ join (js " | ") (map JSON_stringify sorted) ++ js ";" ++ newline;
                js "export type SchemaTypeMap = {" ++ newline
                  ++ join newline
                       (map (fun n => js "  " ++ JSON_stringify n ++ js ": "
                                      ++ toTsIdent n ++ js ";") sorted)
                  ++ newline ++ js "};" ++ newline;
                js "export const __SCHEMA_NAME_TO_TS_IDENT__ = {" ++ newline
                  ++ join newline
                       (map (fun n => js "  " ++ JSON_stringify n ++ js ": "
                                      ++ JSON_stringify (toTsIdent n) ++ js ",") sorted)
                  ++ newline ++ js "} as const;" ++ newline ])).
Proof.
  intros classes props.
  destruct (buildGraph_wf getQuads store) as (Hwf & _).
  destruct (interfaces_spec classes props Hwf) as (sorted & decls & Hrun & Hdecls & Hall).
  exists sorted, decls. split_and!; try assumption.
  unfold generateTs. rewrite Hrun. cbn [mbind option_bind].
  rewrite (mapM_Some_2 _ _ _ Hall). cbn [mbind option_bind].
  rewrite (identOf_sorted sorted
             (fun n i => js "  " ++ JSON_stringify n ++ js ": " ++ i ++ js ";")).
  rewrite (identOf_sorted sorted
             (fun n i => js "  " ++ JSON_stringify n ++ js ": "
                         ++ JSON_stringify i ++ js ",")).
  reflexivity.
Qed.

End PipelineMore.

(** ** Identifier collisions *)

Lemma NoDup_fmap_inj_on {A B} (f : A → B) (l : list A) :
  NoDup l →
  NoDup (f <$> l) ↔ ∀ a b, a ∈ l → b ∈ l → f a = f b → a = b.
Proof.
  intros Hnd. split.
  - intros Hf a b [i Hi]%list_elem_of_lookup [j Hj]%list_elem_of_lookup Hab.
    assert (i = j) as ->; [|congruence].
    apply (NoDup_lookup (f <$> l) i j (f a)); [assumption|..];
      rewrite list_lookup_fmap; [now rewrite Hi | now rewrite Hj, Hab].
  - intros Hinj. now apply NoDup_fmap_2_strong.
Qed.

(** X17: a name that is not itself a valid identifier shares its identifier
    with another name, its own sanitized form: the sanitizer is injective
    on no set of names that holds both. *)
Theorem toTsIdent_collision (s : str) :
  ¬ valid_ident s →
  toTsIdent s ≠ s ∧ toTsIdent (toTsIdent s) = toTsIdent s.
Proof.
  intros Hs. split.
  - intros E. apply Hs. rewrite <- E. apply toTsIdent_valid.
  - apply toTsIdent_fixed, toTsIdent_valid.
Qed.

Lemma toTsIdent_collision_witness :
  toTsIdent some_thing_range ≠ some_thing_range
  ∧ toTsIdent (toTsIdent some_thing_range) = toTsIdent some_thing_range.
Proof.
  apply toTsIdent_collision. intros [Hm _]. vm_compute in Hm. discriminate.
Defined.

(** X18: the interface names of the generated module are pairwise distinct
    exactly when no two class names sanitize to the same identifier; the
    emitter itself does not tell colliding classes apart. *)
Theorem interfaces_idents_distinct (classes : Classes) (props : Props) :
  wf_classes classes →
  ∃ decls,
    interfaces classes props = Some decls
    ∧ (NoDup (ident <$> decls)
       ↔ ∀ a b, a ∈ JsMap.keys classes → b ∈ JsMap.keys classes →
                toTsIdent a = toTsIdent b → a = b).
Proof.
  intros Hwf.
  destruct (topoSortClasses_spec classes Hwf) as (sorted0 & Hrun0 & Hnd & Hmem).
  destruct (interfaces_spec classes props Hwf) as (sorted & decls & Hrun & Hdecls & Hall).
  assert (sorted0 = sorted) as -> by congruence.
  destruct (interfaceOf_names classes props _ _ _ Hall) as [_ Hi].
  exists decls. split; [assumption|].
  rewrite Hi, identTable_fmap, (NoDup_fmap_inj_on toTsIdent sorted Hnd).
  split; intros H a b Ha Hb; apply H; now apply Hmem.
Qed.

Lemma interfaces_idents_distinct_witness :
  ∃ decls,
    interfaces two_cycle [] = Some decls
    ∧ (NoDup (ident <$> decls)
       ↔ ∀ a b, a ∈ JsMap.keys two_cycle → b ∈ JsMap.keys two_cycle →
                toTsIdent a = toTsIdent b → a = b).
Proof. apply (interfaces_idents_distinct two_cycle []), two_cycle_wf. Defined.

(** ** Scalar ranges *)

(** X19: for the nine scalar range names the mapper answers [string],
    [boolean] or [number] whatever the identifier table holds: a class of
    the graph that bears one of these names is never referred to by a
    property type. *)
Theorem rangeToTs_scalar (r : str) (tbl : list (str * str)) :
  r ∈ primitive_names →
  rangeToTs r tbl ∈ [js "string"; js "boolean"; js "number"]
  ∧ rangeToTs r tbl = rangeToTs r [].
Proof.
  unfold primitive_names. rewrite !elem_of_cons, elem_of_nil.
  intros [->|[->|[->|[->|[->|[->|[->|[->|[->|[]]]]]]]]]];
    (split; [|reflexivity]);
    apply (bool_decide_unpack _); vm_compute; exact I.
Qed.

Lemma rangeToTs_scalar_witness :
  rangeToTs (js "Text") (identTable [js "Text"]) ∈ [js "string"; js "boolean"; js "number"]
  ∧ rangeToTs (js "Text") (identTable [js "Text"]) = rangeToTs (js "Text") [].
Proof.
  apply rangeToTs_scalar. apply (bool_decide_unpack _). vm_compute. exact I.
Defined.

(** ** The serializer: what escaping costs *)

Lemma escape_length c :
  length (escape c) = if bool_decide (c ∈ unsafe_units) then 6 else 1.
Proof.
  case_bool_decide as Hc.
  - unfold unsafe_units in Hc. rewrite !elem_of_cons, elem_of_nil in Hc.
    destruct Hc as [->|[->|[->|[->|[->|[]]]]]]; reflexivity.
  - unfold unsafe_units in Hc. rewrite !not_elem_of_cons in Hc. destruct_and!.
    unfold escape. now rewrite !decide_False by assumption.
Qed.

Lemma escape_id c : c ∉ unsafe_units → escape c = [c].
Proof.
  unfold unsafe_units. rewrite !not_elem_of_cons. intros H. destruct_and!.
  unfold escape. now rewrite !decide_False by assumption.
Qed.

Lemma bind_escape_length (json : str) :
  length (json ≫= escape)
  = length json + 5 * length (filter (fun c => c ∈ unsafe_units) json).
Proof.
  induction json as [|c json IH]; [reflexivity|].
  rewrite bind_cons, length_app, IH, escape_length, filter_cons.
  case_bool_decide as Hc.
  - rewrite decide_True by assumption. simpl. lia.
  - rewrite decide_False by assumption. simpl. lia.
Qed.

Section SerializerMore.

Context {value : Type} (JSON_stringify : value → option str).

(** X20: whenever [JSON.stringify] yields a text, the serializer returns a
    text six units long for every unsafe unit of the JSON text and one unit
    long for any other; it returns the JSON text unchanged exactly when that
    text holds none of the five units. *)
Theorem safeJsonLdStringify_length (v : value) (json : str) :
  JSON_stringify v = Some json →
  ∃ out,
    safeJsonLdStringify JSON_stringify v = Some out
    ∧ length out = length json + 5 * length (filter (fun c => c ∈ unsafe_units) json)
    ∧ (out = json ↔ Forall (fun c => c ∉ unsafe_units) json).
Proof.
  intros Hjson. unfold safeJsonLdStringify. rewrite Hjson. cbn [mbind option_bind].
  rewrite replace_chain_escape. eexists. split; [reflexivity|].
  split; [apply bind_escape_length|]. split.
  - intros E. apply (f_equal length) in E. rewrite bind_escape_length in E.
    assert (filter (fun c => c ∈ unsafe_units) json = []) as Hnil.
    { destruct (filter _ json); [reflexivity | simpl in E; lia]. }
    apply Forall_forall. intros c Hc Hu.
    assert (c ∈ filter (fun c => c ∈ unsafe_units) json) as Hin
      by now apply list_elem_of_filter.
    rewrite Hnil in Hin. now apply elem_of_nil in Hin.
  - clear Hjson. induction 1 as [|c l Hc _ IH]; [reflexivity|].
    rewrite bind_cons, (escape_id c Hc), IH. reflexivity.
Qed.

End SerializerMore.

Lemma safeJsonLdStringify_length_witness :
  ∃ out,
    safeJsonLdStringify (fun s : str => Some s) (js "a<b") = Some out
    ∧ length out
      = length (js "a<b") + 5 * length (filter (fun c => c ∈ unsafe_units) (js "a<b"))
    ∧ (out = js "a<b" ↔ Forall (fun c => c ∉ unsafe_units) (js "a<b")).
Proof.
  apply (safeJsonLdStringify_length (fun s : str => Some s) (js "a<b") (js "a<b")).
  reflexivity.
Defined.

(** ** The React package: nodes, payloads and the script body *)

Section ReactBuilders.

Context {V : Type} (string_value : str → V).

Lemma spread_get (target source : list (str * V)) k :
  NoDup (JsMap.keys source) →
  JsMap.get k (React.spread target source)
  = match JsMap.get k source with
    | Some v => Some v
    | None => JsMap.get k target
    end.
Proof.
  unfold React.spread. revert target.
  induction source as [|[k' v'] source IH]; intros target Hnd; [reflexivity|].
  apply NoDup_cons in Hnd as [Hk' Hnd]. cbn [foldl fst snd JsMap.get].
  rewrite (IH _ Hnd), JsMap_get_set. case_decide as Hk; [subst k|reflexivity].
  now rewrite (proj2 (JsMap_get_None source k') Hk').
Qed.

(** X21: in the node [schema] builds, the properties of [data] win: a name
    [data] defines has the value [data] gives it, [@type] and [@context]
    included; otherwise [@type] is the type argument, [@context] is the
    context option when that is a non-empty string, and no other name is
    defined. *)
Theorem schema_lookup (type : str) (data : list (str * V)) (opts : option React.Opts)
    (k : str) :
  NoDup (JsMap.keys data) →
  JsMap.get k (React.schema string_value type data opts)
  = match JsMap.get k data with
    | Some v => Some v
    | None =>
        if decide (k = js "@type") then Some (string_value type)
        else if decide (k = js "@context")
             then match React.context_of opts with
                  | Some c => if truthy c then Some (string_value c) else None
                  | None => None
                  end
             else None
    end.
Proof.
  intros Hnd. unfold React.schema. rewrite (spread_get _ _ _ Hnd).
  destruct (JsMap.get k data); [reflexivity|].
  rewrite JsMap_get_set. case_decide as Ht; [reflexivity|].
  destruct (React.context_of opts) as [c|]; [destruct (truthy c)|];
    cbn [React.spread foldl JsMap.set JsMap.get fst snd];
    case_decide; reflexivity.
Qed.

(** X22: the object [JsonLd] serializes is the node [schema] builds from
    the same type, data and context, the default context included, as long
    as the context is not the empty string; for the empty string [JsonLd]
    still writes [@context] where [schema] leaves it out. *)
Theorem JsonLd_payload_schema (type : str) (data : list (str * V)) :
  (∀ context : option str,
     default React.default_context context ≠ [] →
     React.JsonLd_payload string_value type data context
     = React.schema string_value type data
         (Some {| React.context := Some (default React.default_context context) |}))
  ∧ (NoDup (JsMap.keys data) → JsMap.get (js "@context") data = None →
     JsMap.get (js "@context") (React.JsonLd_payload string_value type data (Some []))
     = Some (string_value [])
     ∧ JsMap.get (js "@context")
         (React.schema string_value type data (Some {| React.context := Some [] |}))
       = None).
Proof.
  split.
  - intros context Hne. unfold React.JsonLd_payload, React.schema.
    cbn [React.context_of mbind option_bind React.context].
    destruct (default React.default_context context) as [|c r]; [contradiction|].
    reflexivity.
  - intros Hnd Hnone. split.
    + unfold React.JsonLd_payload. rewrite (spread_get _ _ _ Hnd), Hnone. reflexivity.
    + unfold React.schema. rewrite (spread_get _ _ _ Hnd), Hnone. reflexivity.
Qed.

End ReactBuilders.

Lemma schema_lookup_witness :
  JsMap.get (js "@type")
    (React.schema (fun s : str => s) (js "Person") [(js "name", js "Ada")] None)
  = match JsMap.get (js "@type") [(js "name", js "Ada")] with
    | Some v => Some v
    | None =>
        if decide (js "@type" = js "@type") then Some (js "Person")
        else if decide (js "@type" = js "@context")
             then match React.context_of None with
                  | Some c => if truthy c then Some c else None
                  | None => None
                  end
             else None
    end.
Proof.
  apply (schema_lookup (fun s : str => s) (js "Person") [(js "name", js "Ada")] None).
  apply (bool_decide_unpack _). vm_compute. exact I.
Defined.

Lemma JsonLd_payload_schema_witness :
  React.JsonLd_payload (fun s : str => s) (js "Person") [(js "name", js "Ada")] None
  = React.schema (fun s : str => s) (js "Person") [(js "name", js "Ada")]
      (Some {| React.context := Some React.default_context |}).
Proof.
  destruct (JsonLd_payload_schema (fun s : str => s) (js "Person")
              [(js "name", js "Ada")]) as [H _].
  apply (H None). discriminate.
Defined.

(** X23: [JsonLdGraph] and [graph] default the context alike: the payload
    of the component is the one [graph] builds from the caller's context,
    its [@graph] holds the nodes as given, and its [@context] is the empty
    string only when the caller passed the empty string. *)
Theorem JsonLdGraph_payload_graph {node : Type} (nodes : list node) (context : option str) :
  React.JsonLdGraph_payload nodes context
  = React.graph nodes (Some {| React.context := context |})
  ∧ React.at_graph (React.JsonLdGraph_payload nodes context) = nodes
  ∧ (React.at_context (React.JsonLdGraph_payload nodes context) = []
     ↔ context = Some []).
Proof.
  unfold React.JsonLdGraph_payload, React.graph.
  cbn [React.context_of mbind option_bind React.context React.at_graph React.at_context].
  destruct context as [c|]; cbv [default from_option id]; split_and!; try reflexivity.
  - split; [now intros -> | now intros [= ->]].
  - split; discriminate.
Qed.

Section ReactScript.

Context {value : Type} (JSON_stringify : value → option str).

(** X24: the body of the script tag holds one of the five unsafe units
    exactly when the caller passed a pre-serialized [json] that holds one:
    a body the components serialize themselves is always escaped, a [json]
    of the caller is written as it is.  The body is missing only when
    [json] is absent and [JSON.stringify] yields no text. *)
Theorem html_unsafe_iff (json : option str) (payload : value) :
  (∀ out, React.html JSON_stringify json payload = Some out →
     Exists (fun u => u ∈ unsafe_units) out
     ↔ ∃ text, json = Some text ∧ Exists (fun u => u ∈ unsafe_units) text)
  ∧ (React.html JSON_stringify json payload = None
     ↔ json = None ∧ JSON_stringify payload = None).
Proof.
  destruct json as [text|]; cbn [React.html].
  - split.
    + intros out [= <-]. split; [intros H; now exists text|].
      now intros (t & [= <-] & H).
    + split; [discriminate | now intros [? _]].
  - unfold safeJsonLdStringify.
    destruct (JSON_stringify payload) as [text|]; cbn [mbind option_bind].
    + split.
      * intros out [= <-]. rewrite replace_chain_escape. split.
        -- intros Hex. exfalso. apply Exists_exists in Hex as (u & Hu & Hun).
           pose proof (bind_escape_safe text) as Hsafe.
           now apply (proj1 (Forall_forall _ _) Hsafe u Hu).
        -- now intros (t & [=] & _).
      * split; [discriminate | now intros [_ ?]].
    + split; [discriminate | tauto].
Qed.

End ReactScript.

Lemma html_unsafe_iff_witness :
  Exists (fun u => u ∈ unsafe_units) (js "</script>")
  ↔ ∃ text, Some (js "</script>") = Some text
            ∧ Exists (fun u => u ∈ unsafe_units) text.
Proof.
  destruct (html_unsafe_iff (fun s : str => Some s) (Some (js "</script>")) (js "x"))
    as [H _].
  apply (H (js "</script>")). reflexivity.
Defined.
